(** * request-server.go: the request-dispatch core of the SFTP request server

    A shallow embedding of [src/request-server.go] (package [sftp]):
    the registry of open requests ([nextRequest], [getRequest],
    [closeRequest]), the body of the [packetWorker] loop, and [Serve] with
    its reader loop, packet channel and worker goroutines.

    Conventions.
    - A Go pointer to a [Request] is an address in a store of [Request] objects
      ([mem]); the nil pointer is [None].  [openRequests] maps handles to
      addresses, as the Go map holds pointers.
    - Code of the package that lives in other files (the codec, the
      [Request] methods, the constants) is gathered in the class
      [External]; every definition below takes it as a parameter.
    - A call that panics ends the whole Go process; it is the [Panic]
      result of the worker monad. *)

From stdpp Require Import gmap strings list.
From Stdlib Require Import ZArith Lia.

Open Scope Z_scope.
Open Scope string_scope.
Open Scope list_scope.

(** ** Errors, packets and replies *)

(** Go [error] values that the file tells apart.  A nil error is [None]
    in an [option error]. *)
Inductive error :=
| EBADF                      (* syscall.EBADF *)
| io_EOF                     (* end of stream reported by a reader *)
| errOther (msg : string).

(** [rxPacket{fxp(pktType), pktBytes}], the raw message given to the codec. *)
Record rxPacket := mkRx { pktType : Z; pktBytes : list Byte.byte }.

(** The values of the [packet] interface, by the cases of the type switch
    in [packetWorker].  Every other concrete packet type is [sshFxpOther]:
    it implements [hasHandle] when [oHandle] is [Some _] and [hasPath]
    when [oPath] is [Some _]. *)
Inductive packet :=
| sshFxInitPacket (Version : Z) (Extensions : list string)
| sshFxpOpenPacket (ID : Z) (Path : string) (Pflags : Z)
| sshFxpOpendirPacket (ID : Z) (Path : string)
| sshFxpClosePacket (ID : Z) (Handle : string)
| sshFxpOther (kind : Z) (ID : Z) (oHandle : option string) (oPath : option string).

(** [pkt.id()].  The init message has no identifier field on the wire. *)
Definition id (p : packet) : Z :=
  match p with
  | sshFxInitPacket _ _ => 0
  | sshFxpOpenPacket i _ _ => i
  | sshFxpOpendirPacket i _ => i
  | sshFxpClosePacket i _ => i
  | sshFxpOther _ i _ _ => i
  end.

(** The [encoding.BinaryMarshaler] values handed to [sendPacket]. *)
Inductive marshaler :=
| nil_marshaler                                      (* zero value of [var rpkt] *)
| sshFxVersionPacket (Version : Z) (Extensions : list string)
| sshFxpHandlePacket (ID : Z) (Handle : string)
| sshFxpStatusPacket (ID : Z) (err : option error)   (* [None]: success *)
| responsePacket (ID : Z) (body : string).           (* built by a handler *)


(** Modelled from the spec: [statusFromError] is not in this file.  The
    spec has it as the generic status reply (success or failure code) that
    carries the request identifier of the packet it answers. *)
Definition statusFromError (p : packet) (err : option error) : marshaler :=
  sshFxpStatusPacket (id p) err.

(** ** Requests and their store *)

(** The [Request] struct.  [Filepath] is the field this file reads; the
    fields filled by [populate] are the payload [fields]. *)
Record Request (D : Type) := mkRequest { Filepath : string; fields : D }.
Arguments mkRequest {D} _ _.
Arguments Filepath {D} _.
Arguments fields {D} _.

(** Result of a call into code that may panic. *)
Inductive outcome (A : Type) :=
| Returns (a : A)
| Panics.
Arguments Returns {A} _.
Arguments Panics {A}.

(** Code and constants of the package that are outside this file. *)
Class External := {
  sftpServerWorkerCount : nat;
  sftpProtocolVersion : Z;
  (** the capability bundle passed through to [handleRequest] *)
  Handlers : Type;
  (** the fields of [Request] other than [Filepath], and their zero value *)
  ReqData : Type;
  reqZero : ReqData;
  (** the codec *)
  makePacket : rxPacket -> packet + error;
  (** the method [populate] of [Request], on a live receiver and on the nil receiver *)
  populate : Request ReqData -> packet -> outcome (Request ReqData);
  populate_nil : packet -> outcome unit;
  (** the method [handleRequest] of [Request], likewise; it returns [(rpkt, err)] *)
  handleRequest :
    Request ReqData -> Handlers ->
    outcome (Request ReqData * (marshaler * option error));
  handleRequest_nil : Handlers -> outcome (marshaler * option error);
}.

Definition ptr := nat.

(** Calls observed while a packet is served. *)
Inductive event :=
| EvNextRequest (handle : string)
| EvGetRequest (handle : string) (ok : bool)
| EvCloseRequest (handle : string)
| EvPopulate (receiver : option ptr) (p : packet)
| EvHandleRequest (receiver : option ptr)
| EvSendPacket (m : marshaler) (res : option error).

(** Modelled from the spec: the Transport ([serverConn], [recvPacket],
    [sendPacket], [Close]) is not in this file.  Its read side delivers the
    messages of [incoming] in order and then reports [eos] ([io_EOF] when
    the peer ended the stream cleanly, another error for a read failure);
    after [Close] a read fails.  The outcome of each write is scripted by
    [wfaults] (a write past the end of the script succeeds). *)
Record Conn := mkConn {
  incoming : list rxPacket;
  eos : error;
  wfaults : list (option error);
  written : list marshaler;
  closed : bool;
}.

(** [pktChan], a buffered channel. *)
Record Chan := mkChan { buf : list packet; chClosed : bool }.

Section Server.

Context `{E : External}.

(** [RequestServer], with the store of [Request] objects and the call
    trace next to it. *)
Record RequestServer := mkRS {
  conn : Conn;
  handlers : Handlers;
  pktChan : Chan;
  openRequests : gmap string ptr;
  mem : ptr -> Request ReqData;
  next : ptr;
  trace : list event;
}.

Definition set_conn c (rs : RequestServer) :=
  mkRS c (handlers rs) (pktChan rs) (openRequests rs) (mem rs) (next rs) (trace rs).
Definition set_pktChan ch (rs : RequestServer) :=
  mkRS (conn rs) (handlers rs) ch (openRequests rs) (mem rs) (next rs) (trace rs).
Definition set_openRequests m (rs : RequestServer) :=
  mkRS (conn rs) (handlers rs) (pktChan rs) m (mem rs) (next rs) (trace rs).
Definition store (a : ptr) (r : Request ReqData) (rs : RequestServer) :=
  mkRS (conn rs) (handlers rs) (pktChan rs) (openRequests rs)
       (fun b => if decide (b = a) then r else mem rs b) (next rs) (trace rs).
Definition alloc (r : Request ReqData) (rs : RequestServer) : ptr * RequestServer :=
  (next rs,
   mkRS (conn rs) (handlers rs) (pktChan rs) (openRequests rs)
        (fun b => if decide (b = next rs) then r else mem rs b)
        (S (next rs)) (trace rs)).
Definition emit (e : event) (rs : RequestServer) :=
  mkRS (conn rs) (handlers rs) (pktChan rs) (openRequests rs) (mem rs) (next rs)
       (trace rs ++ [e]).

(** ** The worker monad: state passing, with panics *)

Inductive result (A : Type) :=
| Ret (a : A) (rs : RequestServer)
| Panic (rs : RequestServer).
Arguments Ret {A} _ _.
Arguments Panic {A} _.

Definition M (A : Type) := RequestServer -> result A.

Definition ret {A} (a : A) : M A := fun rs => Ret a rs.
Definition bind {A B} (m : M A) (k : A -> M B) : M B :=
  fun rs => match m rs with
            | Ret a rs' => k a rs'
            | Panic rs' => Panic rs'
            end.
Definition modify (f : RequestServer -> RequestServer) : M unit :=
  fun rs => Ret tt (f rs).
Definition gets {A} (f : RequestServer -> A) : M A :=
  fun rs => Ret (f rs) rs.
Definition call {A} (o : outcome A) : M A :=
  fun rs => match o with Returns a => Ret a rs | Panics => Panic rs end.

Notation "x <- m ;; k" := (bind m (fun x => k))
  (at level 100, m at next level, right associativity).
Notation "m ;;; k" := (bind m (fun _ => k))
  (at level 100, right associativity).

Definition final_state {A} (r : result A) : RequestServer :=
  match r with Ret _ rs => rs | Panic rs => rs end.

(** ** The registry: lines 70-90 *)

(** Modelled from the spec: [newRequest] is not in this file.  The spec has
    a Request hold "the originating path"; the other fields start at their
    zero value.  The call allocates the object and returns its address. *)
Definition newRequest (path : string) : M ptr :=
  fun rs => let '(a, rs') := alloc (mkRequest path reqZero) rs in Ret a rs'.

(** [func (rs *RequestServer) nextRequest(r *Request) string] *)
Definition nextRequest (r : ptr) : M string :=
  fp <- gets (fun rs => Filepath (mem rs r)) ;;
  modify (fun rs => set_openRequests (<[fp := r]> (openRequests rs)) rs) ;;;
  modify (emit (EvNextRequest fp)) ;;;
  ret fp.

(** [func (rs *RequestServer) getRequest(handle string)], returning the pointer and [ok] *)
Definition getRequest (handle : string) : M (option ptr * bool) :=
  r <- gets (fun rs => openRequests rs !! handle) ;;
  let ok := bool_decide (is_Some r) in
  modify (emit (EvGetRequest handle ok)) ;;;
  ret (r, ok).

(** [func (rs *RequestServer) closeRequest(handle string)] *)
Definition closeRequest (handle : string) : M unit :=
  modify (fun rs =>
    match openRequests rs !! handle with
    | Some _ => set_openRequests (delete handle (openRequests rs)) rs
    | None => rs
    end) ;;;
  modify (emit (EvCloseRequest handle)).

(** [rs.nextRequest(newRequest(path))], as lines 133, 138 and 151 have it:
    the operation the specification calls register. *)
Definition register (path : string) : M string :=
  r <- newRequest path ;;
  nextRequest r.

(** ** Sending *)

Definition conn_write (m : marshaler) (c : Conn) : option error * Conn :=
  match wfaults c with
  | Some e :: ws => (Some e, mkConn (incoming c) (eos c) ws (written c) (closed c))
  | None :: ws => (None, mkConn (incoming c) (eos c) ws (written c ++ [m]) (closed c))
  | [] => (None, mkConn (incoming c) (eos c) [] (written c ++ [m]) (closed c))
  end.

(** [sendPacket] asks the marshaler for its bytes and writes them.
    Entered with the nil interface (the zero value of [rpkt], which
    [handleRequest] may also return next to a nil error) the method call
    on it panics: nothing reaches the connection and no send is
    recorded. *)
Definition sendPacket (m : marshaler) : M (option error) :=
  fun rs =>
    match m with
    | nil_marshaler => Panic rs
    | _ =>
        let '(res, c) := conn_write m (conn rs) in
        Ret res (emit (EvSendPacket m res) (set_conn c rs))
    end.

(** Modelled from the spec: [sendError] is not in this file; it sends the
    status reply built from the packet and the error. *)
Definition sendError (p : packet) (err : option error) : M (option error) :=
  sendPacket (statusFromError p err).

(** ** Calls of the [Request] methods through a possibly nil pointer *)

Definition call_populate (request : option ptr) (pkt : packet) : M unit :=
  modify (emit (EvPopulate request pkt)) ;;;
  match request with
  | None => call (populate_nil pkt)
  | Some a =>
      r <- gets (fun rs => mem rs a) ;;
      r' <- call (populate r pkt) ;;
      modify (store a r')
  end.

Definition call_handleRequest (request : option ptr) : M (marshaler * option error) :=
  modify (emit (EvHandleRequest request)) ;;;
  h <- gets handlers ;;
  match request with
  | None => call (handleRequest_nil h)
  | Some a =>
      r <- gets (fun rs => mem rs a) ;;
      res <- call (handleRequest r h) ;;
      modify (store a (fst res)) ;;;
      ret (snd res)
  end.

(** ** The body of the loop of [packetWorker]: lines 122-162

    The result [Some err] stands for [return err], [None] for reaching the
    next iteration (by [continue] or at the end of the body). *)

(** Lines 154-161, the part of the body after the type switch, entered
    with the [handle] the switch has set.  The status built at line 155 is
    assigned to [rpkt] and execution goes on to line 156; line 157 assigns
    [rpkt] again. *)
Definition serve_handle (pkt : packet) (handle : string) : M (option error) :=
  found <- getRequest handle ;;
  let '(request, ok) := found in
  let rpkt := if ok then nil_marshaler else statusFromError pkt (Some EBADF) in
  call_populate request pkt ;;;
  out <- call_handleRequest request ;;
  let '(rpkt, err) := out in
  let rpkt := match err with
              | Some e => statusFromError pkt (Some e)
              | None => rpkt
              end in
  sendPacket rpkt.

Definition packetWorker_body (pkt : packet) : M (option error) :=
  match pkt with
  | sshFxInitPacket _ _ =>
      sendPacket (sshFxVersionPacket sftpProtocolVersion [])
  | sshFxpOpenPacket _ path _ =>
      handle <- register path ;;
      sendPacket (sshFxpHandlePacket (id pkt) handle)
  | sshFxpOpendirPacket _ path =>
      handle <- register path ;;
      sendPacket (sshFxpHandlePacket (id pkt) handle)
  | sshFxpClosePacket _ h =>
      let handle := h in
      closeRequest handle ;;;
      sendError pkt None
  | sshFxpOther _ _ oh op =>
      handle <-
        match oh, op with
        | Some h, _ => ret h                    (* case hasHandle *)
        | None, Some path => register path      (* case hasPath *)
        | None, None => ret ""                  (* no case: handle stays "" *)
        end ;;
      serve_handle pkt handle
  end.

(** [packetWorker], lines 121-164, run by one goroutine on the packets
    [pkts] that it receives from [rs.pktChan] before the channel is closed
    and drained. *)
Fixpoint packetWorker (pkts : list packet) : M (option error) :=
  match pkts with
  | [] => ret None
  | pkt :: rest =>
      r <- packetWorker_body pkt ;;
      match r with
      | Some e => ret (Some e)
      | None => packetWorker rest
      end
  end.

(** ** [NewRequestServer]: lines 54-68

    The [Handlers] field is filled in by the caller before [Serve]. *)
Definition NewRequestServer (rwc : Conn) (h : Handlers) : RequestServer :=
  mkRS rwc h (mkChan [] false) ∅ (fun _ => mkRequest "" reqZero) 0%nat [].

(** ** [Serve]: lines 93-119

    [Serve] runs one reader (the calling goroutine) and
    [sftpServerWorkerCount] worker goroutines.  Their interleaving is given
    by a schedule; [step] runs one goroutine up to its next point of
    interaction.  A worker's turn serves one packet from the channel: the
    registry calls run under [openRequestLock] and nothing of what [Serve]
    returns depends on how the turns of two workers overlap. *)

(** Where the goroutine of [Serve] stands. *)
Inductive reader :=
| Receiving                    (* line 109, at [rs.recvPacket()] *)
| Enqueueing (pkt : packet)    (* line 113, at [rs.pktChan <- pkt] *)
| Closing                      (* line 116, at [close(rs.pktChan)] *)
| Waiting                      (* line 117, at [wg.Wait()] *)
| Returned (r : option error). (* line 118, after [return err] *)

(** Where a worker goroutine (lines 97-102) stands. *)
Inductive worker :=
| Working               (* in [packetWorker], at [range rs.pktChan] *)
| Failed (e : error)    (* [packetWorker] returned [e]; at [rs.conn.Close()] *)
| Exited.               (* [wg.Done()] has run *)

(** Why the reader left its loop. *)
Inductive stop :=
| RecvFailed (e : error)
| DecodeFailed (e : error).

Record Session := mkSession {
  server : RequestServer;
  reader_pc : reader;
  err : option error;        (* [var err error], line 105 *)
  workers : list worker;
  stopped : option stop;     (* which [break] was taken, if any *)
  crashed : bool;            (* a goroutine panicked: the process is gone *)
}.

Definition conn_read (c : Conn) : (rxPacket + error) * Conn :=
  if closed c then (inr (errOther "closed"), c)
  else match incoming c with
       | [] => (inr (eos c), c)
       | rx :: rest =>
           (inl rx, mkConn rest (eos c) (wfaults c) (written c) (closed c))
       end.

Definition conn_close (c : Conn) : Conn :=
  mkConn (incoming c) (eos c) (wfaults c) (written c) true.

Definition is_exited (w : worker) : bool :=
  match w with Exited => true | _ => false end.

Definition step_reader (s : Session) : option Session :=
  match reader_pc s with
  | Receiving =>
      (* pktType, pktBytes, err = rs.recvPacket() *)
      let '(res, c) := conn_read (conn (server s)) in
      let srv := set_conn c (server s) in
      match res with
      | inr e =>
          (* if err != nil { break } *)
          Some (mkSession srv Closing (Some e) (workers s)
                          (Some (RecvFailed e)) (crashed s))
      | inl rx =>
          (* pkt, err := makePacket(...): this [err] is a new variable of
             the loop body; the one declared at line 105 keeps the nil
             that [recvPacket] has just assigned to it *)
          match makePacket rx with
          | inr e =>
              (* if err != nil { break } *)
              Some (mkSession srv Closing None (workers s)
                              (Some (DecodeFailed e)) (crashed s))
          | inl pkt =>
              Some (mkSession srv (Enqueueing pkt) None (workers s)
                              (stopped s) (crashed s))
          end
      end
  | Enqueueing pkt =>
      let ch := pktChan (server s) in
      if decide (length (buf ch) < sftpServerWorkerCount)%nat then
        Some (mkSession
                (set_pktChan (mkChan (buf ch ++ [pkt]) (chClosed ch)) (server s))
                Receiving (err s) (workers s) (stopped s) (crashed s))
      else None
  | Closing =>
      let ch := pktChan (server s) in
      Some (mkSession (set_pktChan (mkChan (buf ch) true) (server s))
                      Waiting (err s) (workers s) (stopped s) (crashed s))
  | Waiting =>
      if forallb is_exited (workers s) then
        Some (mkSession (server s) (Returned (err s)) (err s) (workers s)
                        (stopped s) (crashed s))
      else None
  | Returned _ => None
  end.

Definition step_worker (i : nat) (s : Session) : option Session :=
  match workers s !! i with
  | Some Working =>
      let ch := pktChan (server s) in
      match buf ch with
      | pkt :: rest =>
          let srv := set_pktChan (mkChan rest (chClosed ch)) (server s) in
          match packetWorker_body pkt srv with
          | Ret None srv' =>
              Some (mkSession srv' (reader_pc s) (err s) (workers s)
                              (stopped s) (crashed s))
          | Ret (Some e) srv' =>
              Some (mkSession srv' (reader_pc s) (err s)
                              (<[i := Failed e]> (workers s))
                              (stopped s) (crashed s))
          | Panic srv' =>
              Some (mkSession srv' (reader_pc s) (err s) (workers s)
                              (stopped s) true)
          end
      | [] =>
          if chClosed ch then
            Some (mkSession (server s) (reader_pc s) (err s)
                            (<[i := Exited]> (workers s))
                            (stopped s) (crashed s))
          else None
      end
  | Some (Failed _) =>
      Some (mkSession (set_conn (conn_close (conn (server s))) (server s))
                      (reader_pc s) (err s) (<[i := Exited]> (workers s))
                      (stopped s) (crashed s))
  | Some Exited | None => None
  end.

Inductive choice :=
| RunReader
| RunWorker (i : nat).

Definition step (c : choice) (s : Session) : option Session :=
  if crashed s then None
  else match c with
       | RunReader => step_reader s
       | RunWorker i => step_worker i s
       end.

(** A schedule names the goroutine to run next; a goroutine that cannot
    move (blocked, or finished) is passed over. *)
Fixpoint run (sched : list choice) (s : Session) : Session :=
  match sched with
  | [] => s
  | c :: cs => run cs (default s (step c s))
  end.

Definition Serve_start (rs : RequestServer) : Session :=
  mkSession rs Receiving None (replicate sftpServerWorkerCount Working) None false.

(** What [Serve] has returned after the goroutines ran as [sched] says. *)
Definition Serve (sched : list choice) (rs : RequestServer) : option (option error) :=
  match reader_pc (run sched (Serve_start rs)) with
  | Returned r => Some r
  | _ => None
  end.

Definition reachable (rs : RequestServer) (s : Session) : Prop :=
  exists sched, run sched (Serve_start rs) = s.

(** What holds of [Serve] wherever the goroutines stand: the reader is
    past its loop exactly when a [break] was taken, [err] is what that
    [break] left in it, the channel is closed once [close] has run, and
    [Serve] has returned [err] with every worker gone. *)
Definition break_recorded (s : Session) : Prop :=
  match stopped s with
  | None => False
  | Some (RecvFailed e) => err s = Some e
  | Some (DecodeFailed _) => err s = None
  end.

Definition session_inv (s : Session) : Prop :=
  match reader_pc s with
  | Receiving | Enqueueing _ => stopped s = None
  | Closing => break_recorded s
  | Waiting => break_recorded s /\ chClosed (pktChan (server s)) = true
  | Returned r =>
      break_recorded s /\ chClosed (pktChan (server s)) = true /\
      r = err s /\ forallb is_exited (workers s) = true
  end.

(** A bound on the turns left once the reader is past its loop. *)
Definition worker_weight (w : worker) : nat :=
  match w with Working => 2 | Failed _ => 1 | Exited => 0 end.

Definition reader_weight (r : reader) : nat :=
  match r with Closing => 2 | Waiting => 1 | _ => 0 end.

Definition turns_left (s : Session) : nat :=
  (reader_weight (reader_pc s) + length (buf (pktChan (server s))) +
   sum_list (worker_weight <$> workers s))%nat.

End Server.

Arguments Ret {E A} _ _.
Arguments Panic {E A} _.

(** ** A small instance of the external code

    Enough of a codec and of the [Request] methods to run the model on
    concrete sessions.  [populate] records the packet in the request,
    [handleRequest] answers with the path of the request; on the nil
    receiver both dereference it and panic. *)

Definition demo_makePacket (rx : rxPacket) : packet + error :=
  let s := String.string_of_list_byte (pktBytes rx) in
  match pktType rx with
  | 1 => inl (sshFxInitPacket 3 [])
  | 3 => inl (sshFxpOpenPacket 7 s 0)
  | 4 => inl (sshFxpClosePacket 8 s)
  | 5 => inl (sshFxpOther 5 9 (Some s) None)
  | 17 => inl (sshFxpOther 17 10 None (Some s))
  | _ => inr (errOther "unhandled packet type")
  end.

Definition demo : External := {|
  sftpServerWorkerCount := 2;
  sftpProtocolVersion := 3;
  Handlers := unit;
  ReqData := list packet;
  reqZero := [];
  makePacket := demo_makePacket;
  populate := fun r p => Returns (mkRequest (Filepath r) (p :: fields r));
  populate_nil := fun _ => Panics;
  handleRequest := fun r _ =>
    Returns (r, (responsePacket (match fields r with p :: _ => id p | [] => 0 end)
                                (Filepath r), None));
  handleRequest_nil := fun _ => Panics;
|}.

(** The same, with [Request] methods that return on the nil receiver. *)
Definition demo_lenient : External := {|
  sftpServerWorkerCount := 2;
  sftpProtocolVersion := 3;
  Handlers := unit;
  ReqData := list packet;
  reqZero := [];
  makePacket := demo_makePacket;
  populate := fun r p => Returns (mkRequest (Filepath r) (p :: fields r));
  populate_nil := fun _ => Returns tt;
  handleRequest := fun r _ =>
    Returns (r, (responsePacket (match fields r with p :: _ => id p | [] => 0 end)
                                (Filepath r), None));
  handleRequest_nil := fun _ => Returns (responsePacket 0 "", None);
|}.

(** A connection with the given incoming messages, ended by [e]. *)
Definition conn_of (msgs : list rxPacket) (e : error) : Conn :=
  mkConn msgs e [] [] false.

(** The same, with a [handleRequest] that returns the nil interface next
    to a nil error. *)
Definition demo_nil_reply : External := {|
  sftpServerWorkerCount := 2;
  sftpProtocolVersion := 3;
  Handlers := unit;
  ReqData := list packet;
  reqZero := [];
  makePacket := demo_makePacket;
  populate := fun r p => Returns (mkRequest (Filepath r) (p :: fields r));
  populate_nil := fun _ => Panics;
  handleRequest := fun r _ => Returns (r, (nil_marshaler, None));
  handleRequest_nil := fun _ => Panics;
|}.



(** Concrete sessions: a fresh server on a connection that the peer ends
    cleanly at once, one on a connection whose only message the codec
    rejects, and a schedule that lets the reader stop, close the channel,
    the two workers exit, and the reader return. *)
Definition fresh : @RequestServer demo :=
  @NewRequestServer demo (conn_of [] io_EOF) tt.

Definition fresh_lenient : @RequestServer demo_lenient :=
  @NewRequestServer demo_lenient (conn_of [] io_EOF) tt.

Definition bad_msg : rxPacket := mkRx 99 [].

Definition fresh_bad : @RequestServer demo :=
  @NewRequestServer demo (conn_of [bad_msg] io_EOF) tt.

Definition shutdown_sched : list choice :=
  [RunReader; RunReader; RunWorker 0; RunWorker 1; RunReader].

(** The sent replies in a trace, with the result of each write. *)
Definition sends (evs : list event) : list (marshaler * option error) :=
  omap (fun e => match e with
                 | EvSendPacket m r => Some (m, r)
                 | _ => None
                 end) evs.

(** The handles [nextRequest] returned, in order. *)
Definition registered (evs : list event) : list string :=
  omap (fun e => match e with
                 | EvNextRequest h => Some h
                 | _ => None
                 end) evs.

(** The path an open-like packet carries. *)
Definition open_path (p : packet) : option string :=
  match p with
  | sshFxpOpenPacket _ path _ => Some path
  | sshFxpOpendirPacket _ path => Some path
  | _ => None
  end.

(** The path a packet registers: open-like packets and packets served
    through [hasPath]. *)
Definition registers (p : packet) : option string :=
  match p with
  | sshFxpOpenPacket _ path _ => Some path
  | sshFxpOpendirPacket _ path => Some path
  | sshFxpOther _ _ None (Some path) => Some path
  | _ => None
  end.

(** The handle a close packet names. *)
Definition closes (p : packet) : option string :=
  match p with
  | sshFxpClosePacket _ h => Some h
  | _ => None
  end.

(** ** Abstract views used to state what the code keeps

    The set of open handles as a replay of the packets served: a packet
    that registers a path adds it, a close packet removes its handle, any
    other packet leaves the set alone. *)
Definition handles_step (open : gset string) (p : packet) : gset string :=
  match registers p, closes p with
  | Some path, _ => {[path]} ∪ open
  | None, Some h => open ∖ {[h]}
  | None, None => open
  end.

Definition open_handles_after (served : list packet) (open : gset string)
  : gset string :=
  foldl handles_step open served.


(** The packet the reader holds while it is at [rs.pktChan <- pkt]. *)
Definition in_hand (r : reader) : nat :=
  match r with Enqueueing _ => 1 | _ => 0 end.

(** The message that was read and then rejected by the codec. *)
Definition rejected (st : option stop) : nat :=
  match st with Some (DecodeFailed _) => 1 | _ => 0 end.

(** The reader has not run [close(rs.pktChan)] yet. *)
Definition before_close (r : reader) : bool :=
  match r with Receiving | Enqueueing _ | Closing => true | _ => false end.

(** What [Serve] keeps of the channel on a server made by
    [NewRequestServer]: never more packets than its capacity, and open
    until the reader has run [close(rs.pktChan)]. *)
Definition chan_inv `{E : External} (s : Session) : Prop :=
  (length (buf (pktChan (server s))) <= sftpServerWorkerCount)%nat /\
  (before_close (reader_pc s) = true -> chClosed (pktChan (server s)) = false).

(** What [Serve] keeps on a connection [c0] on which no write fails, as
    long as no goroutine has panicked: no worker fails, so the connection
    is not closed; a worker has exited only with the channel closed and
    drained; and every message taken from the connection is a reply
    written, a packet in the channel, the packet in the reader's hand, or
    the message the codec rejected. *)
Definition quiet_inv `{E : External} (c0 : Conn) (s : Session) : Prop :=
  crashed s = true \/
  (wfaults (conn (server s)) = [] /\
   eos (conn (server s)) = eos c0 /\
   closed (conn (server s)) = closed c0 /\
   Forall (fun w => w = Working \/ w = Exited) (workers s) /\
   (Forall (fun w => w = Working) (workers s) \/
    (chClosed (pktChan (server s)) = true /\ buf (pktChan (server s)) = [])) /\
   (forall e, stopped s = Some (RecvFailed e) -> closed c0 = false ->
      e = eos c0 /\ incoming (conn (server s)) = []) /\
   (length (written (conn (server s))) + length (buf (pktChan (server s))) +
    in_hand (reader_pc s) + length (incoming (conn (server s))) +
    rejected (stopped s) =
    length (written c0) + length (incoming c0))%nat).

(** More concrete servers: one on which "/a" has been opened, one whose
    first writes fail, and a connection whose first message the codec
    rejects while a second one waits behind it. *)
Definition opened_a : @RequestServer demo :=
  final_state (packetWorker_body (sshFxpOpenPacket 7 "/a" 0) fresh).

Definition read_a : packet := sshFxpOther 5 9 (Some "/a") None.

Definition bad_then_open : Conn :=
  conn_of [bad_msg; mkRx 3 []] io_EOF.

(** Concrete sessions for the step machine: five open messages on a
    connection whose first two writes fail, and a schedule in which the
    reader keeps the channel full while both workers fail and leave. *)
Definition open_msg (path : string) : rxPacket :=
  mkRx 3 (String.list_byte_of_string path).

Definition failing_conn : Conn :=
  mkConn [open_msg "/a"; open_msg "/b"; open_msg "/c"; open_msg "/d"; open_msg "/e"]
         io_EOF [Some (errOther "broken pipe"); Some (errOther "broken pipe")]
         [] false.

Definition hang_sched : list choice :=
  [RunReader; RunReader; RunReader; RunReader; RunReader;
   RunWorker 0; RunReader; RunReader;
   RunWorker 1; RunReader; RunReader;
   RunWorker 0; RunWorker 1].

Definition three_opens : Conn :=
  conn_of [open_msg "/a"; open_msg "/b"; open_msg "/c"] io_EOF.

Definition fair_sched : list choice :=
  [RunReader; RunReader; RunWorker 0; RunReader; RunReader; RunWorker 1;
   RunReader; RunReader; RunWorker 0; RunReader; RunReader;
   RunWorker 0; RunWorker 1; RunReader].

(** * Properties *)

Section Registry.

Context `{E : External}.

Lemma register_ret path rs :
  exists rs',
    register path rs = Ret path rs' /\
    openRequests rs' = <[path := next rs]> (openRequests rs) /\
    trace rs' = trace rs ++ [EvNextRequest path] /\
    conn rs' = conn rs /\ handlers rs' = handlers rs /\
    pktChan rs' = pktChan rs /\ next rs' = S (next rs).
Proof.
  unfold register, newRequest, nextRequest, bind, gets, modify, ret, alloc.
  simpl. rewrite decide_True by done. simpl.
  eexists; split; [reflexivity|]. simpl. done.
Qed.

Lemma getRequest_ret handle rs :
  getRequest handle rs =
  Ret (openRequests rs !! handle, bool_decide (is_Some (openRequests rs !! handle)))
      (emit (EvGetRequest handle (bool_decide (is_Some (openRequests rs !! handle)))) rs).
Proof. reflexivity. Qed.

Lemma closeRequest_ret handle rs :
  exists rs',
    closeRequest handle rs = Ret tt rs' /\
    openRequests rs' = delete handle (openRequests rs) /\
    trace rs' = trace rs ++ [EvCloseRequest handle] /\
    conn rs' = conn rs /\ handlers rs' = handlers rs /\
    pktChan rs' = pktChan rs /\ mem rs' = mem rs /\ next rs' = next rs.
Proof.
  unfold closeRequest, bind, modify. simpl.
  destruct (openRequests rs !! handle) eqn:Hl; simpl;
    (eexists; split; [reflexivity|]); simpl; repeat split; try done.
  symmetry. by apply delete_id.
Qed.

End Registry.

Section Worker.

Context `{E : External}.

Lemma sendPacket_ret m rs :
  m <> nil_marshaler ->
  exists res rs',
    sendPacket m rs = Ret res rs' /\
    res = fst (conn_write m (conn rs)) /\
    trace rs' = trace rs ++ [EvSendPacket m res] /\
    written (conn rs') =
      written (conn rs) ++ (if res is None then [m] else []) /\
    openRequests rs' = openRequests rs /\ mem rs' = mem rs /\
    next rs' = next rs /\ handlers rs' = handlers rs /\
    pktChan rs' = pktChan rs.
Proof.
  intros Hm. unfold sendPacket, conn_write.
  destruct m; [done|..];
    (destruct (wfaults (conn rs)) as [|[e|] ws]; simpl;
     do 2 eexists; (split; [reflexivity|]); simpl; repeat split; try done;
     by rewrite app_nil_r).
Qed.

(** A send that returns was made with a packet and went to the
    connection; a send that panics was made with the nil interface and
    left everything as it was. *)
Lemma sendPacket_Ret m rs res rs' :
  sendPacket m rs = Ret res rs' ->
  m <> nil_marshaler /\ conn_write m (conn rs) = (res, conn rs').
Proof.
  unfold sendPacket. destruct m; [done|..];
    (destruct (conn_write _ (conn rs)) as [r c]; by intros [= <- <-]).
Qed.

Lemma sendPacket_Panic m rs rs' :
  sendPacket m rs = Panic rs' -> m = nil_marshaler /\ rs' = rs.
Proof.
  unfold sendPacket. destruct m; [by intros [= <-]|..];
    by destruct (conn_write _ (conn rs)).
Qed.

(** What a write does to the connection, whatever the packet. *)
Lemma conn_write_spec m c :
  conn_write m c =
  (match wfaults c with Some e :: _ => Some e | _ => None end,
   mkConn (incoming c) (eos c) (tail (wfaults c))
          (written c ++ match wfaults c with Some _ :: _ => [] | _ => [m] end)
          (closed c)).
Proof.
  unfold conn_write. destruct (wfaults c) as [|[e|] ws]; simpl; [done| |done].
  by rewrite app_nil_r.
Qed.

Lemma call_populate_frame request pkt rs :
  openRequests (final_state (call_populate request pkt rs)) = openRequests rs /\
  conn (final_state (call_populate request pkt rs)) = conn rs /\
  handlers (final_state (call_populate request pkt rs)) = handlers rs /\
  trace (final_state (call_populate request pkt rs)) =
    trace rs ++ [EvPopulate request pkt].
Proof.
  unfold call_populate, bind, modify, gets, call. simpl.
  destruct request as [a|]; simpl.
  - destruct (populate _ _); simpl; done.
  - destruct (populate_nil _); simpl; done.
Qed.

Lemma call_handleRequest_frame request rs :
  openRequests (final_state (call_handleRequest request rs)) = openRequests rs /\
  conn (final_state (call_handleRequest request rs)) = conn rs /\
  handlers (final_state (call_handleRequest request rs)) = handlers rs /\
  trace (final_state (call_handleRequest request rs)) =
    trace rs ++ [EvHandleRequest request].
Proof.
  unfold call_handleRequest, bind, modify, gets, call, ret. simpl.
  destruct request as [a|]; simpl.
  - destruct (handleRequest _ _) as [[r' out]|]; simpl; done.
  - destruct (handleRequest_nil _); simpl; done.
Qed.

(** What lines 154-161 do, in full: the lookup, then [populate] and
    [handleRequest] on whatever the lookup gave (nil included), then one
    send.  The registry is not written. *)
Lemma serve_handle_spec pkt handle rs :
  let found := openRequests rs !! handle in
  let ok := bool_decide (is_Some found) in
  openRequests (final_state (serve_handle pkt handle rs)) = openRequests rs /\
  match serve_handle pkt handle rs with
  | Panic rs' =>
      trace rs' = trace rs ++ [EvGetRequest handle ok; EvPopulate found pkt] \/
      trace rs' = trace rs ++ [EvGetRequest handle ok; EvPopulate found pkt;
                               EvHandleRequest found]
  | Ret res rs' =>
      exists m,
        trace rs' = trace rs ++ [EvGetRequest handle ok; EvPopulate found pkt;
                                 EvHandleRequest found; EvSendPacket m res] /\
        written (conn rs') =
          written (conn rs) ++ (if res is None then [m] else []) /\
        ((exists e, m = statusFromError pkt (Some e)) \/
         (exists st1 st2, call_handleRequest found st1 = Ret (m, None) st2))
  end.
Proof.
  intros found ok.
  assert (Hs := eq_refl (serve_handle pkt handle rs)).
  unfold serve_handle at 2 in Hs. unfold bind in Hs.
  rewrite getRequest_ret in Hs. fold found in Hs. fold ok in Hs.
  set (rs1 := emit _ rs) in Hs.
  pose proof (call_populate_frame found pkt rs1) as (Po & Pc & Ph & Pt).
  destruct (call_populate found pkt rs1) as [[] rs2|rs2] eqn:Hp;
    simpl in Po, Pc, Ph, Pt.
  2:{ rewrite Hs. simpl. split; [done|]. left. rewrite Pt. subst rs1. simpl.
      by rewrite <- app_assoc. }
  pose proof (call_handleRequest_frame found rs2) as (Ho & Hc & Hh & Ht).
  destruct (call_handleRequest found rs2) as [[rp err] rs3|rs3] eqn:Hr;
    simpl in Ho, Hc, Hh, Ht.
  2:{ rewrite Hs. simpl. split; [congruence|]. right. rewrite Ht, Pt.
      subst rs1. simpl. by rewrite <- !app_assoc. }
  set (m := match err with Some e => statusFromError pkt (Some e) | None => rp end)
    in Hs.
  destruct (sendPacket m rs3) as [res rs4|rs4] eqn:Hsd.
  2:{ apply sendPacket_Panic in Hsd as [_ ->]. rewrite Hs. simpl.
      split; [congruence|]. right. rewrite Ht, Pt. subst rs1. simpl.
      by rewrite <- !app_assoc. }
  destruct (sendPacket_Ret _ _ _ _ Hsd) as [Hm _].
  destruct (sendPacket_ret m rs3 Hm)
    as (res' & rs4' & Hsd' & _ & St & Sw & So & _).
  rewrite Hsd in Hsd'. injection Hsd' as <- <-.
  rewrite Hs. simpl. split; [congruence|].
  exists m. rewrite St, Sw, Ht, Pt, Hc, Pc. subst rs1. simpl.
  rewrite <- !app_assoc. simpl. repeat split; try done.
  subst m. destruct err as [e|]; [left; eauto|right; eauto].
Qed.

Lemma init_body_ret rs :
  exists res rs',
    sendPacket (sshFxVersionPacket sftpProtocolVersion []) rs = Ret res rs' /\
    trace rs' =
      trace rs ++ [EvSendPacket (sshFxVersionPacket sftpProtocolVersion []) res] /\
    written (conn rs') =
      written (conn rs) ++
        (if res is None then [sshFxVersionPacket sftpProtocolVersion []] else []) /\
    openRequests rs' = openRequests rs /\
    mem rs' = mem rs /\ next rs' = next rs.
Proof.
  destruct (sendPacket_ret (sshFxVersionPacket sftpProtocolVersion []) rs ltac:(done))
    as (res & rs' & Hs & _ & Ht & Hw & Ho & Hm & Hn & _).
  by exists res, rs'.
Qed.

Lemma body_other k i oh op rs :
  packetWorker_body (sshFxpOther k i oh op) rs =
  match oh, op with
  | Some h, _ => serve_handle (sshFxpOther k i oh op) h rs
  | None, Some path =>
      match register path rs with
      | Ret handle rs1 => serve_handle (sshFxpOther k i oh op) handle rs1
      | Panic rs1 => Panic rs1
      end
  | None, None => serve_handle (sshFxpOther k i oh op) "" rs
  end.
Proof. by destruct oh, op. Qed.

(** The effect of one packet on the map of open requests. *)
Lemma body_registry pkt rs :
  openRequests (final_state (packetWorker_body pkt rs)) =
  match registers pkt, closes pkt with
  | Some path, _ => <[path := next rs]> (openRequests rs)
  | None, Some h => delete h (openRequests rs)
  | None, None => openRequests rs
  end.
Proof.
  destruct pkt as [v x|i path f|i path|i h|k i oh op].
  - destruct (init_body_ret rs) as (res & rs' & Hb & _ & _ & Ho & _).
    simpl in *. by rewrite Hb.
  - unfold packetWorker_body, bind.
    destruct (register_ret path rs) as (rs1 & Hr & Ho & _). rewrite Hr.
    cbn beta iota delta [id].
    destruct (sendPacket_ret (sshFxpHandlePacket i path) rs1 ltac:(done))
      as (res & rs2 & Hs & _ & _ & _ & Ho2 & _).
    rewrite Hs. simpl. congruence.
  - unfold packetWorker_body, bind.
    destruct (register_ret path rs) as (rs1 & Hr & Ho & _). rewrite Hr.
    cbn beta iota delta [id].
    destruct (sendPacket_ret (sshFxpHandlePacket i path) rs1 ltac:(done))
      as (res & rs2 & Hs & _ & _ & _ & Ho2 & _).
    rewrite Hs. simpl. congruence.
  - unfold packetWorker_body, bind.
    destruct (closeRequest_ret h rs) as (rs1 & Hc & Ho & _). rewrite Hc.
    cbn beta iota. unfold sendError.
    destruct (sendPacket_ret (statusFromError (sshFxpClosePacket i h) None) rs1 ltac:(done))
      as (res & rs2 & Hs & _ & _ & _ & Ho2 & _).
    rewrite Hs. simpl. congruence.
  - rewrite body_other.
    destruct oh as [h|], op as [path|]; cbn [registers closes];
      try apply serve_handle_spec.
    destruct (register_ret path rs) as (rs1 & Hr & Ho & _). rewrite Hr.
    rewrite <- Ho. apply serve_handle_spec.
Qed.

Lemma packetWorker_cons pkt rest rs :
  packetWorker (pkt :: rest) rs =
  match packetWorker_body pkt rs with
  | Ret None rs1 => packetWorker rest rs1
  | Ret (Some e) rs1 => Ret (Some e) rs1
  | Panic rs1 => Panic rs1
  end.
Proof.
  simpl. unfold bind.
  by destruct (packetWorker_body pkt rs) as [[e|] rs1|rs1].
Qed.

(** An entry stays in the map while no close packet names its handle. *)
Lemma packetWorker_keeps_entry h pkts : forall rs,
  Forall (fun p => closes p <> Some h) pkts ->
  is_Some (openRequests rs !! h) ->
  is_Some (openRequests (final_state (packetWorker pkts rs)) !! h).
Proof.
  induction pkts as [|pkt rest IH]; intros rs Hall Hin; [done|].
  inversion Hall as [|? ? Hp Hrest]; subst.
  assert (Hstep : is_Some
    (openRequests (final_state (packetWorker_body pkt rs)) !! h)).
  { rewrite body_registry.
    destruct (registers pkt) as [path|]; [|destruct (closes pkt) as [h'|]].
    - rewrite lookup_insert. case_decide; [by eexists|done].
    - rewrite lookup_delete_ne; [done|congruence].
    - done. }
  rewrite packetWorker_cons.
  destruct (packetWorker_body pkt rs) as [[e|] rs1|rs1]; simpl in *; auto.
Qed.

(** A handle stays absent while no packet registers its path. *)
Lemma packetWorker_keeps_absent h pkts : forall rs,
  Forall (fun p => registers p <> Some h) pkts ->
  openRequests rs !! h = None ->
  openRequests (final_state (packetWorker pkts rs)) !! h = None.
Proof.
  induction pkts as [|pkt rest IH]; intros rs Hall Hin; [done|].
  inversion Hall as [|? ? Hp Hrest]; subst.
  assert (Hstep :
    openRequests (final_state (packetWorker_body pkt rs)) !! h = None).
  { rewrite body_registry.
    destruct (registers pkt) as [path|]; [|destruct (closes pkt) as [h'|]].
    - rewrite lookup_insert_ne; [done|congruence].
    - rewrite lookup_delete. by case_decide.
    - done. }
  rewrite packetWorker_cons.
  destruct (packetWorker_body pkt rs) as [[e|] rs1|rs1]; simpl in *; auto.
Qed.

Lemma close_body_ret i h rs :
  exists res rs',
    packetWorker_body (sshFxpClosePacket i h) rs = Ret res rs' /\
    res = match wfaults (conn rs) with Some e :: _ => Some e | _ => None end /\
    trace rs' =
      trace rs ++ [EvCloseRequest h; EvSendPacket (sshFxpStatusPacket i None) res] /\
    openRequests rs' = delete h (openRequests rs) /\
    written (conn rs') =
      written (conn rs) ++ (if res is None then [sshFxpStatusPacket i None] else []).
Proof.
  destruct (closeRequest_ret h rs) as (st1 & Hc & Ho & Ht & Hcn & _).
  destruct (sendPacket_ret (sshFxpStatusPacket i None) st1 ltac:(done))
    as (res & st2 & Hs & Hr & Ht2 & Hw & Ho2 & _).
  assert (Hb : packetWorker_body (sshFxpClosePacket i h) rs = Ret res st2).
  { unfold packetWorker_body, bind. rewrite Hc. exact Hs. }
  exists res, st2. rewrite Hb, Ht2, Ht, Ho2, Ho, Hw, Hcn, <- app_assoc. simpl.
  repeat split; try done.
  rewrite Hr, Hcn. unfold conn_write.
  by destruct (wfaults (conn rs)) as [|[e|] ws].
Qed.

Lemma open_body_ret pkt path rs :
  open_path pkt = Some path ->
  exists res rs1,
    packetWorker_body pkt rs = Ret res rs1 /\
    trace rs1 = trace rs ++
      [EvNextRequest path; EvSendPacket (sshFxpHandlePacket (id pkt) path) res] /\
    openRequests rs1 = <[path := next rs]> (openRequests rs).
Proof.
  intros Hp.
  assert (Hopen : forall i, exists res rs',
    bind (register path)
         (fun handle => sendPacket (sshFxpHandlePacket i handle)) rs
      = Ret res rs' /\
    trace rs' = trace rs ++
      [EvNextRequest path; EvSendPacket (sshFxpHandlePacket i path) res] /\
    openRequests rs' = <[path := next rs]> (openRequests rs)).
  { intros i. unfold bind.
    destruct (register_ret path rs) as (rs1 & Hr & Ho & Ht & _). rewrite Hr.
    destruct (sendPacket_ret (sshFxpHandlePacket i path) rs1 ltac:(done))
      as (r & rs2 & Hs & _ & Ht2 & _ & Ho2 & _).
    exists r, rs2. by rewrite Hs, Ht2, Ht, Ho2, Ho, <- app_assoc. }
  destruct pkt; simpl in Hp; try done; injection Hp as ->; apply Hopen.
Qed.

Lemma conn_write_written m c res c' :
  conn_write m c = (res, c') ->
  res = match wfaults c with Some e :: _ => Some e | _ => None end /\
  written c' =
    written c ++ match wfaults c with Some _ :: _ => [] | _ => [m] end.
Proof. rewrite conn_write_spec. by intros [= <- <-]. Qed.

Lemma close_body_conn i h rs res rs' :
  packetWorker_body (sshFxpClosePacket i h) rs = Ret res rs' ->
  conn_write (sshFxpStatusPacket i None) (conn rs) = (res, conn rs').
Proof.
  unfold packetWorker_body, bind.
  destruct (closeRequest_ret h rs) as (st1 & -> & _ & _ & Hcn & _).
  intros Hs. apply sendPacket_Ret in Hs as [_ Hs]. by rewrite Hcn in Hs.
Qed.

Lemma open_body_conn pkt path rs res rs' :
  open_path pkt = Some path ->
  packetWorker_body pkt rs = Ret res rs' ->
  conn_write (sshFxpHandlePacket (id pkt) path) (conn rs) = (res, conn rs').
Proof.
  intros Hp.
  assert (Hopen : forall i,
    bind (register path)
         (fun handle => sendPacket (sshFxpHandlePacket i handle)) rs
      = Ret res rs' ->
    conn_write (sshFxpHandlePacket i path) (conn rs) = (res, conn rs')).
  { intros i. unfold bind.
    destruct (register_ret path rs) as (rs1 & -> & _ & _ & Hc & _).
    intros Hs. apply sendPacket_Ret in Hs as [_ Hs]. by rewrite Hc in Hs. }
  destruct pkt; simpl in Hp; try done; injection Hp as ->; apply Hopen.
Qed.


(** C8.  Serving a session-init packet writes the version reply
    [sshFxVersionPacket{sftpProtocolVersion, nil}] to the connection (it
    is there afterwards unless the Transport fails that write, and the
    result of the body is the result of that write) and touches nothing of
    the registry: the map of open requests, the stored requests and the
    allocation point are as before, and the only call recorded is the
    send (no [nextRequest], [getRequest] or [closeRequest]). *)
Theorem init_replies_version_registry_untouched
    (v : Z) (exts : list string) (rs : RequestServer)
    (m := sshFxVersionPacket sftpProtocolVersion []) :
  exists res rs',
    packetWorker_body (sshFxInitPacket v exts) rs = Ret res rs' /\
    conn_write m (conn rs) = (res, conn rs') /\
    res = match wfaults (conn rs) with Some e :: _ => Some e | _ => None end /\
    written (conn rs') =
      written (conn rs) ++
        match wfaults (conn rs) with Some _ :: _ => [] | _ => [m] end /\
    trace rs' = trace rs ++ [EvSendPacket m res] /\
    openRequests rs' = openRequests rs /\
    mem rs' = mem rs /\ next rs' = next rs.
Proof.
  destruct (sendPacket_ret m rs ltac:(done))
    as (res & rs' & Hs & _ & Ht & _ & Ho & Hm & Hn & _).
  destruct (sendPacket_Ret _ _ _ _ Hs) as [_ Hcw].
  destruct (conn_write_written _ _ _ _ Hcw) as [Hres Hw].
  exists res, rs'. split; [exact Hs|]. by repeat split.
Qed.

(** C7.  Serving a close packet, whatever the state of its handle: the
    worker calls [closeRequest] on the handle and then writes the success
    status (nil error) for the packet's identifier to the connection; it
    is there afterwards unless the Transport fails that write.  The body
    never panics, and the worker leaves its loop only if that write
    fails.  The entry of the handle is gone afterwards, a handle that was
    not open leaves the map as it was, and so does a second close of the
    same handle, which is answered with the same success status. *)
Theorem close_releases_and_reports_success
    (i : Z) (h : string) (rs : RequestServer)
    (m := sshFxpStatusPacket i None) :
  exists res rs',
    packetWorker_body (sshFxpClosePacket i h) rs = Ret res rs' /\
    conn_write m (conn rs) = (res, conn rs') /\
    res = match wfaults (conn rs) with Some e :: _ => Some e | _ => None end /\
    written (conn rs') =
      written (conn rs) ++
        match wfaults (conn rs) with Some _ :: _ => [] | _ => [m] end /\
    trace rs' = trace rs ++ [EvCloseRequest h; EvSendPacket m res] /\
    openRequests rs' = delete h (openRequests rs) /\
    openRequests rs' !! h = None /\
    (openRequests rs !! h = None -> openRequests rs' = openRequests rs) /\
    exists res2 rs'',
      packetWorker_body (sshFxpClosePacket i h) rs' = Ret res2 rs'' /\
      conn_write m (conn rs') = (res2, conn rs'') /\
      written (conn rs'') =
        written (conn rs') ++
          match wfaults (conn rs') with Some _ :: _ => [] | _ => [m] end /\
      openRequests rs'' = openRequests rs' /\
      trace rs'' = trace rs' ++ [EvCloseRequest h; EvSendPacket m res2].
Proof.
  destruct (close_body_ret i h rs) as (res & rs' & H1 & H2 & H3 & H4 & _).
  destruct (close_body_ret i h rs') as (res2 & rs'' & G1 & G2 & G3 & G4 & _).
  pose proof (close_body_conn i h rs res rs' H1) as Hcw.
  pose proof (close_body_conn i h rs' res2 rs'' G1) as Gcw.
  destruct (conn_write_written _ _ _ _ Hcw) as [_ Hw].
  destruct (conn_write_written _ _ _ _ Gcw) as [_ Gw].
  exists res, rs'. split; [exact H1|]. split; [exact Hcw|].
  split; [exact H2|]. split; [exact Hw|]. split; [exact H3|].
  split; [exact H4|]. split; [by rewrite H4, lookup_delete_eq|]. split.
  - intros Hn. rewrite H4. by apply delete_id.
  - exists res2, rs''. split; [exact G1|]. split; [exact Gcw|].
    split; [exact Gw|]. split; [|exact G3].
    rewrite G4, H4. apply delete_id. by rewrite lookup_delete_eq.
Qed.

(** C1.  What the worker does with a packet that carries a handle the
    registry does not know.  The lookup fails and line 155 builds the
    bad-descriptor status, but execution goes on: [populate] is called on
    the nil request, then [handleRequest] on the nil request, and the
    packet sent is the one [handleRequest] gave (or the status of its
    error).  If [populate] panics there, nothing is sent at all. *)
Theorem unknown_handle_reaches_request_methods
    (k i : Z) (h : string) (op : option string) (rs : RequestServer) :
  openRequests rs !! h = None ->
  let pkt := sshFxpOther k i (Some h) op in
  let rs1 := emit (EvPopulate None pkt) (emit (EvGetRequest h false) rs) in
  let rs2 := emit (EvHandleRequest None) rs1 in
  packetWorker_body pkt rs =
    match populate_nil pkt with
    | Panics => Panic rs1
    | Returns _ =>
        match handleRequest_nil (handlers rs) with
        | Panics => Panic rs2
        | Returns (rpkt, err) =>
            sendPacket (match err with
                        | Some e => statusFromError pkt (Some e)
                        | None => rpkt
                        end) rs2
        end
    end.
Proof.
  intros Hn pkt rs1 rs2. subst pkt. rewrite body_other.
  unfold serve_handle, bind. rewrite getRequest_ret, Hn.
  unfold call_populate, call_handleRequest, bind, modify, gets, call. simpl.
  destruct (populate_nil _); [|done].
  destruct (handleRequest_nil _) as [[rp err]|]; done.
Qed.


(** C9.  The handle is the path itself.  [nextRequest] returns the
    [Filepath] of the request it is given, unchanged, and files the
    request under that key; for the request made by [newRequest(path)]
    the [Filepath] is [path].  So an open or opendir packet files its
    request under its own path and writes to the connection the handle
    reply whose handle is that same string (it is there afterwards unless
    the Transport fails the write), and a packet served through [hasPath]
    is looked up under its own path. *)
Theorem handle_is_the_path_itself (rs : RequestServer) :
  (forall r : ptr, exists rs',
     nextRequest r rs = Ret (Filepath (mem rs r)) rs' /\
     openRequests rs' = <[Filepath (mem rs r) := r]> (openRequests rs)) /\
  (forall path : string, exists rs',
     register path rs = Ret path rs' /\
     openRequests rs' !! path = Some (next rs) /\
     Filepath (mem rs' (next rs)) = path) /\
  (forall (i : Z) (path : string) (f : Z), exists res rs',
     packetWorker_body (sshFxpOpenPacket i path f) rs = Ret res rs' /\
     conn_write (sshFxpHandlePacket i path) (conn rs) = (res, conn rs') /\
     written (conn rs') =
       written (conn rs) ++
         match wfaults (conn rs) with
         | Some _ :: _ => []
         | _ => [sshFxpHandlePacket i path]
         end /\
     trace rs' = trace rs ++
       [EvNextRequest path; EvSendPacket (sshFxpHandlePacket i path) res] /\
     openRequests rs' = <[path := next rs]> (openRequests rs) /\
     Filepath (mem rs' (next rs)) = path) /\
  (forall (i : Z) (path : string), exists res rs',
     packetWorker_body (sshFxpOpendirPacket i path) rs = Ret res rs' /\
     conn_write (sshFxpHandlePacket i path) (conn rs) = (res, conn rs') /\
     written (conn rs') =
       written (conn rs) ++
         match wfaults (conn rs) with
         | Some _ :: _ => []
         | _ => [sshFxpHandlePacket i path]
         end /\
     trace rs' = trace rs ++
       [EvNextRequest path; EvSendPacket (sshFxpHandlePacket i path) res] /\
     openRequests rs' = <[path := next rs]> (openRequests rs) /\
     Filepath (mem rs' (next rs)) = path) /\
  (forall (k i : Z) (path : string),
     openRequests
       (final_state (packetWorker_body (sshFxpOther k i None (Some path)) rs)) =
       <[path := next rs]> (openRequests rs) /\
     exists evs,
       trace (final_state (packetWorker_body (sshFxpOther k i None (Some path)) rs)) =
       trace rs ++
         EvNextRequest path :: EvGetRequest path true ::
         EvPopulate (Some (next rs)) (sshFxpOther k i None (Some path)) :: evs).
Proof.
  assert (Hreg : forall path : string, exists rs',
     register path rs = Ret path rs' /\
     openRequests rs' !! path = Some (next rs) /\
     Filepath (mem rs' (next rs)) = path).
  { intros path.
    unfold register, newRequest, nextRequest, bind, gets, modify, ret, alloc.
    simpl. rewrite decide_True by done. simpl.
    eexists. split; [reflexivity|]. simpl.
    rewrite lookup_insert_eq, decide_True; done. }
  assert (Hopen : forall (pkt : packet) (path : string),
     open_path pkt = Some path ->
     exists res rs',
       packetWorker_body pkt rs = Ret res rs' /\
       conn_write (sshFxpHandlePacket (id pkt) path) (conn rs) = (res, conn rs') /\
       written (conn rs') =
         written (conn rs) ++
           match wfaults (conn rs) with
           | Some _ :: _ => []
           | _ => [sshFxpHandlePacket (id pkt) path]
           end /\
       trace rs' = trace rs ++
         [EvNextRequest path;
          EvSendPacket (sshFxpHandlePacket (id pkt) path) res] /\
       openRequests rs' = <[path := next rs]> (openRequests rs) /\
       Filepath (mem rs' (next rs)) = path).
  { intros pkt path Hp.
    destruct (open_body_ret pkt path rs Hp) as (res & rs' & Hb & Ht & Ho).
    pose proof (open_body_conn pkt path rs res rs' Hp Hb) as Hcw.
    destruct (conn_write_written _ _ _ _ Hcw) as [_ Hw].
    exists res, rs'. split; [exact Hb|]. split; [exact Hcw|].
    split; [exact Hw|]. split; [exact Ht|]. split; [exact Ho|].
    assert (Hmem : mem rs' = mem (final_state (register path rs))).
    { assert (Hgen : forall i,
        bind (register path)
             (fun handle => sendPacket (sshFxpHandlePacket i handle)) rs
          = Ret res rs' ->
        mem rs' = mem (final_state (register path rs))).
      { intros i. unfold bind.
        destruct (register_ret path rs) as (rs1 & -> & _).
        destruct (sendPacket_ret (sshFxpHandlePacket i path) rs1 ltac:(done))
          as (r' & rs2 & -> & _ & _ & _ & _ & Hm & _).
        by intros [= <- <-]. }
      destruct pkt; simpl in Hp; try done; injection Hp as ->;
        by eapply Hgen. }
    rewrite Hmem. destruct (Hreg path) as (rs1 & -> & _ & Hf). exact Hf. }
  split; [|split; [exact Hreg|split; [|split]]].
  - intros r. eexists. split; [reflexivity|]. done.
  - intros i path f. by apply (Hopen (sshFxpOpenPacket i path f)).
  - intros i path. by apply (Hopen (sshFxpOpendirPacket i path)).
  - intros k i path. split; [by rewrite body_registry|]. rewrite body_other.
    destruct (register_ret path rs) as (rs1 & Hr & Ho & Ht & _). rewrite Hr.
    pose proof (serve_handle_spec (sshFxpOther k i None (Some path)) path rs1)
      as [_ Hspec].
    cbv zeta in Hspec. rewrite Ho, lookup_insert_eq in Hspec.
    rewrite bool_decide_eq_true_2 in Hspec by by eexists.
    destruct (serve_handle _ path rs1) as [res rs2|rs2]; simpl.
    + destruct Hspec as (m & Ht2 & _). rewrite Ht2, Ht, <- app_assoc. simpl.
      by eexists.
    + destruct Hspec as [Ht2|Ht2]; rewrite Ht2, Ht, <- app_assoc; simpl;
        by eexists.
Qed.

(** C10.  A packet served through [hasPath] files a fresh request under
    its path and nothing in the rest of the body takes it out again: when
    the body ends (the handler has run, or a panic has stopped it) the
    entry is there, and it is still there after any further packets the
    worker serves, as long as none of them is a close packet naming that
    handle. *)
Theorem path_packet_entry_outlives_request
    (k i : Z) (path : string) (rs : RequestServer) :
  let pkt := sshFxpOther k i None (Some path) in
  let rs' := final_state (packetWorker_body pkt rs) in
  openRequests rs' = <[path := next rs]> (openRequests rs) /\
  openRequests rs' !! path = Some (next rs) /\
  (forall res rs1, packetWorker_body pkt rs = Ret res rs1 ->
     exists m, trace rs1 = trace rs ++
       [EvNextRequest path; EvGetRequest path true;
        EvPopulate (Some (next rs)) pkt; EvHandleRequest (Some (next rs));
        EvSendPacket m res]) /\
  (forall pkts,
     Forall (fun p => closes p <> Some path) pkts ->
     is_Some (openRequests (final_state (packetWorker pkts rs')) !! path)).
Proof.
  intros pkt rs'.
  assert (Ho : openRequests rs' = <[path := next rs]> (openRequests rs)).
  { subst rs' pkt. by rewrite body_registry. }
  split; [done|]. split; [by rewrite Ho, lookup_insert_eq|]. split.
  - intros res rs1 Hb. subst pkt. rewrite body_other in Hb.
    destruct (register_ret path rs) as (st & Hr & Hst & Ht & _).
    rewrite Hr in Hb.
    pose proof (serve_handle_spec (sshFxpOther k i None (Some path)) path st)
      as [_ Hspec].
    cbv zeta in Hspec. rewrite Hb, Hst, lookup_insert_eq in Hspec.
    rewrite bool_decide_eq_true_2 in Hspec by by eexists.
    destruct Hspec as (m & Ht2 & _). exists m.
    by rewrite Ht2, Ht, <- app_assoc.
  - intros pkts Hall. apply packetWorker_keeps_entry; [done|].
    by rewrite Ho, lookup_insert_eq.
Qed.

Lemma open_like_is_no_close pkt h :
  is_Some (open_path pkt) -> closes pkt <> Some h.
Proof. destruct pkt; simpl; try done; by intros []. Qed.

(** C4.  [register] returns its argument, so its result depends on the
    path alone, and a lookup of that handle right after the registration
    finds the request just made.  A worker that serves open-like packets
    with pairwise distinct paths gets pairwise distinct handles from
    [nextRequest] (the paths, in order; all of them when no write fails),
    each of them present in the registry. *)
Theorem register_distinct_paths_distinct_handles :
  (forall (path : string) (rs : RequestServer), exists rs',
     register path rs = Ret path rs' /\
     getRequest path rs' =
       Ret (Some (next rs), true) (emit (EvGetRequest path true) rs')) /\
  (forall (pkts : list packet) (rs : RequestServer),
     Forall (fun p => is_Some (open_path p)) pkts ->
     NoDup (omap open_path pkts) ->
     exists evs,
       trace (final_state (packetWorker pkts rs)) = trace rs ++ evs /\
       registered evs `prefix_of` omap open_path pkts /\
       NoDup (registered evs) /\
       (forall h, h ∈ registered evs ->
          is_Some (openRequests (final_state (packetWorker pkts rs)) !! h)) /\
       (forall rs', packetWorker pkts rs = Ret None rs' ->
          registered evs = omap open_path pkts)).
Proof.
  split.
  - intros path rs.
    destruct (register_ret path rs) as (rs' & Hr & Ho & _).
    exists rs'. split; [done|].
    rewrite getRequest_ret, Ho, lookup_insert_eq.
    by rewrite bool_decide_eq_true_2 by by eexists.
  - induction pkts as [|pkt rest IH]; intros rs Hall Hnd.
    { exists []. simpl. rewrite app_nil_r.
      split; [done|]. split; [apply prefix_nil|]. split; [apply NoDup_nil_2|].
      split; [|done]. intros h Hh. by apply elem_of_nil in Hh. }
    inversion Hall as [|? ? [path Hp] Hrest]; subst.
    assert (Heq : omap open_path (pkt :: rest) = path :: omap open_path rest)
      by (cbn [omap list_omap]; by rewrite Hp).
    rewrite Heq in Hnd |- *.
    apply NoDup_cons in Hnd as [Hnotin Hnd].
    destruct (open_body_ret pkt path rs Hp) as (res & rs1 & Hb & Ht & Ho).
    rewrite packetWorker_cons, Hb.
    destruct res as [e|].
    + exists [EvNextRequest path; EvSendPacket (sshFxpHandlePacket (id pkt) path) (Some e)].
      simpl. split; [by rewrite Ht|]. split; [apply prefix_cons, prefix_nil|].
      split; [apply NoDup_singleton|]. split; [|done].
      intros h Hh. apply list_elem_of_singleton in Hh as ->.
      rewrite Ho, lookup_insert_eq. by eexists.
    + destruct (IH rs1 Hrest Hnd) as (evs & Ht' & Hpre & Hnd' & Hin & Hall').
      exists ([EvNextRequest path;
               EvSendPacket (sshFxpHandlePacket (id pkt) path) None] ++ evs).
      rewrite Ht', Ht, <- app_assoc. simpl.
      split; [done|]. split; [by apply prefix_cons|]. split; [|split].
      * apply NoDup_cons. split; [|done].
        intros Hx. apply Hnotin. destruct Hpre as [l ->].
        apply elem_of_app. by left.
      * intros h Hh. apply elem_of_cons in Hh as [->|Hh]; [|by apply Hin].
        apply packetWorker_keeps_entry.
        -- eapply Forall_impl; [exact Hrest|].
           intros p Hop. by apply open_like_is_no_close.
        -- rewrite Ho, lookup_insert_eq. by eexists.
      * intros rs' Hret. f_equal. by eapply Hall'.
Qed.

(** C6.  After [closeRequest h] a lookup of [h] finds nothing, and it
    keeps finding nothing whatever packets the worker serves next, as long
    as none of them registers the path [h]; registering [h] again makes
    the lookup succeed with the new request.  Registering a path and then
    closing its handle leaves no entry for it: the map is the earlier map
    without [h], which is the earlier map itself when [h] was absent. *)
Theorem release_makes_lookup_fail (h : string) (rs : RequestServer) :
  let rs1 := final_state (closeRequest h rs) in
  getRequest h rs1 = Ret (None, false) (emit (EvGetRequest h false) rs1) /\
  (forall pkts,
     Forall (fun p => registers p <> Some h) pkts ->
     let rs2 := final_state (packetWorker pkts rs1) in
     getRequest h rs2 = Ret (None, false) (emit (EvGetRequest h false) rs2)) /\
  (exists rs2,
     register h rs1 = Ret h rs2 /\
     getRequest h rs2 =
       Ret (Some (next rs1), true) (emit (EvGetRequest h true) rs2)) /\
  (exists rs2,
     register h rs = Ret h rs2 /\
     openRequests (final_state (closeRequest h rs2)) = delete h (openRequests rs) /\
     (openRequests rs !! h = None ->
      openRequests (final_state (closeRequest h rs2)) = openRequests rs)).
Proof.
  intros rs1.
  assert (Hgone : openRequests rs1 !! h = None).
  { subst rs1. destruct (closeRequest_ret h rs) as (st & Hc & Ho & _).
    rewrite Hc. simpl. by rewrite Ho, lookup_delete_eq. }
  split; [by rewrite getRequest_ret, Hgone|]. split; [|split].
  - intros pkts Hall rs2.
    assert (Hn : openRequests rs2 !! h = None)
      by by apply packetWorker_keeps_absent.
    by rewrite getRequest_ret, Hn.
  - destruct (register_ret h rs1) as (rs2 & Hr & Ho & _).
    exists rs2. split; [done|].
    rewrite getRequest_ret, Ho, lookup_insert_eq.
    by rewrite bool_decide_eq_true_2 by by eexists.
  - destruct (register_ret h rs) as (rs2 & Hr & Ho & _).
    exists rs2. split; [done|].
    destruct (closeRequest_ret h rs2) as (rs3 & Hc & Ho3 & _).
    rewrite Hc. simpl. rewrite Ho3, Ho, delete_insert_eq.
    split; [done|]. intros Hn. by apply delete_id.
Qed.

End Worker.

Section Session.

Context `{E : External}.

Lemma serve_handle_pktChan pkt handle rs :
  pktChan (final_state (serve_handle pkt handle rs)) = pktChan rs.
Proof.
  unfold serve_handle, call_populate, call_handleRequest, getRequest,
    sendPacket, bind, modify, gets, call, ret.
  simpl. repeat case_match; simpl in *; simplify_eq; done.
Qed.

Lemma body_pktChan pkt rs :
  pktChan (final_state (packetWorker_body pkt rs)) = pktChan rs.
Proof.
  destruct pkt as [v x|i path f|i path|i h|k i oh op].
  - unfold packetWorker_body, sendPacket. simpl. by repeat case_match.
  - unfold packetWorker_body, bind.
    destruct (register_ret path rs) as (rs1 & -> & _ & _ & _ & _ & Hp & _).
    unfold sendPacket. simpl. by repeat case_match.
  - unfold packetWorker_body, bind.
    destruct (register_ret path rs) as (rs1 & -> & _ & _ & _ & _ & Hp & _).
    unfold sendPacket. simpl. by repeat case_match.
  - unfold packetWorker_body, bind.
    destruct (closeRequest_ret h rs) as (rs1 & -> & _ & _ & _ & _ & Hp & _).
    unfold sendError, sendPacket. simpl. by repeat case_match.
  - rewrite body_other. destruct oh as [h|], op as [path|];
      try apply serve_handle_pktChan.
    destruct (register_ret path rs) as (rs1 & -> & _ & _ & _ & _ & Hp & _).
    rewrite <- Hp. apply serve_handle_pktChan.
Qed.

Lemma all_exited_lookup ws i w :
  forallb is_exited ws = true -> ws !! i = Some w -> w = Exited.
Proof.
  revert i. induction ws as [|w' ws IH]; intros i Hall Hl; [done|].
  simpl in Hall. apply andb_true_iff in Hall as [Hw Hws].
  destruct i as [|i]; simpl in Hl.
  - injection Hl as <-. by destruct w'.
  - by eapply IH.
Qed.

Lemma not_all_exited ws :
  forallb is_exited ws = false ->
  exists i w, ws !! i = Some w /\ w <> Exited.
Proof.
  induction ws as [|w ws IH]; [done|]. simpl. intros Hall.
  destruct w; simpl in Hall.
  - by exists 0%nat, Working.
  - by exists 0%nat, (Failed e).
  - destruct (IH Hall) as (i & w & Hl & Hw). by exists (S i), w.
Qed.

Lemma weight_insert ws i w w' :
  ws !! i = Some w ->
  (sum_list (worker_weight <$> <[i := w']> ws) + worker_weight w =
   sum_list (worker_weight <$> ws) + worker_weight w')%nat.
Proof.
  revert i. induction ws as [|x ws IH]; intros i Hl; [done|].
  destruct i as [|i]; simpl in *.
  - injection Hl as ->. lia.
  - specialize (IH i Hl). unfold fmap in *. lia.
Qed.

Lemma start_inv rs : session_inv (Serve_start rs).
Proof. done. Qed.

Lemma step_worker_frame i s s' :
  step_worker i s = Some s' ->
  reader_pc s' = reader_pc s /\ err s' = err s /\ stopped s' = stopped s /\
  chClosed (pktChan (server s')) = chClosed (pktChan (server s)) /\
  exists w, workers s !! i = Some w /\ w <> Exited.
Proof.
  unfold step_worker. intros Hs.
  destruct (workers s !! i) as [[|e|]|] eqn:Hw; [| |done|done].
  - destruct (buf (pktChan (server s))) as [|pkt rest] eqn:Hb.
    + destruct (chClosed (pktChan (server s))) eqn:Hc; [|done].
      injection Hs as <-. simpl. repeat split; try done. by eexists.
    + set (srv := set_pktChan _ (server s)) in Hs.
      pose proof (body_pktChan pkt srv) as Hp.
      destruct (packetWorker_body pkt srv) as [[e|] srv'|srv'];
        injection Hs as <-; simpl in *; rewrite Hp;
        (repeat split; try done); by eexists.
  - injection Hs as <-. simpl. repeat split; try done. by eexists.
Qed.

Lemma step_inv c s s' :
  step c s = Some s' -> session_inv s -> session_inv s'.
Proof.
  unfold step. destruct (crashed s); [done|]. destruct c as [|i].
  - unfold step_reader, session_inv, break_recorded.
    destruct (reader_pc s) as [|pkt| | |r] eqn:Hpc; intros Hs Hinv.
    + destruct (conn_read (conn (server s))) as [[rx|e] c].
      * destruct (makePacket rx) as [pkt|e]; injection Hs as <-; by simpl.
      * injection Hs as <-. by simpl.
    + case_decide; [|done]. injection Hs as <-. by simpl.
    + injection Hs as <-. by simpl.
    + destruct Hinv as [Hb Hc].
      destruct (forallb is_exited (workers s)) eqn:Hall; [|done].
      injection Hs as <-. by simpl.
    + done.
  - intros Hs Hinv.
    destruct (step_worker_frame i s s' Hs) as (Hpc & He & Hst & Hc & w & Hw & Hne).
    unfold session_inv, break_recorded in *.
    rewrite Hpc, He, Hst, Hc.
    destruct (reader_pc s) as [|pkt| | |r]; try done.
    destruct Hinv as (_ & _ & _ & Hall).
    by pose proof (all_exited_lookup _ _ _ Hall Hw).
Qed.

Lemma run_inv sched : forall s, session_inv s -> session_inv (run sched s).
Proof.
  induction sched as [|c cs IH]; intros s Hinv; [done|].
  simpl. apply IH. destruct (step c s) as [s'|] eqn:Hs; simpl; [|done].
  by eapply step_inv.
Qed.

Lemma reachable_inv rs s : reachable rs s -> session_inv s.
Proof. intros [sched <-]. apply run_inv, start_inv. Qed.

(** Past the loop every turn uses up some of [turns_left]. *)
Lemma step_past_loop c s s' :
  session_inv s -> stopped s <> None -> step c s = Some s' ->
  stopped s' = stopped s /\ (turns_left s' < turns_left s)%nat.
Proof.
  unfold step. destruct (crashed s); [done|]. intros Hinv Hst.
  destruct c as [|i].
  - unfold step_reader, session_inv, turns_left in *.
    destruct (reader_pc s) as [|pkt| | |r] eqn:Hpc; intros Hs; try done.
    + injection Hs as <-. simpl. split; [done|lia].
    + destruct (forallb is_exited (workers s)); [|done].
      injection Hs as <-. simpl. split; [done|lia].
  - unfold step_worker, turns_left. intros Hs.
    destruct (workers s !! i) as [[|e|]|] eqn:Hw; [| |done|done].
    + destruct (buf (pktChan (server s))) as [|pkt rest] eqn:Hb.
      * destruct (chClosed (pktChan (server s))); [|done].
        injection Hs as <-. simpl. split; [done|].
        pose proof (weight_insert _ _ _ Exited Hw). simpl in *.
        rewrite Hb. simpl. lia.
      * set (srv := set_pktChan _ (server s)) in Hs.
        pose proof (body_pktChan pkt srv) as Hp.
        destruct (packetWorker_body pkt srv) as [[e|] srv'|srv'];
          injection Hs as <-; simpl in *; rewrite Hp; simpl;
          (split; [done|]); try lia.
        pose proof (weight_insert _ _ _ (Failed e) Hw). simpl in *. lia.
    + injection Hs as <-. simpl. split; [done|].
      pose proof (weight_insert _ _ _ Exited Hw). simpl in *. lia.
Qed.

(** Past the loop some goroutine can always move, until [Serve] returns
    or a panic ends the process. *)
Lemma progress_past_loop s :
  session_inv s -> stopped s <> None -> crashed s = false ->
  (exists r, reader_pc s = Returned r) \/ (exists c s', step c s = Some s').
Proof.
  intros Hinv Hst Hcr. unfold step. rewrite Hcr.
  unfold session_inv in Hinv.
  destruct (reader_pc s) as [|pkt| | |r] eqn:Hpc; try done.
  - right. exists RunReader. unfold step_reader. rewrite Hpc. by eexists.
  - destruct Hinv as [_ Hc].
    destruct (forallb is_exited (workers s)) eqn:Hall.
    + right. exists RunReader. unfold step_reader. rewrite Hpc, Hall.
      by eexists.
    + destruct (not_all_exited _ Hall) as (i & w & Hw & Hne).
      right. exists (RunWorker i). unfold step_worker. rewrite Hw.
      destruct w as [|e|]; [| |done].
      * destruct (buf (pktChan (server s))) as [|p rest].
        -- rewrite Hc. by eexists.
        -- destruct (packetWorker_body _ _) as [[e|] srv'|srv']; by eexists.
      * by eexists.
  - left. by eexists.
Qed.

(** Past the loop a schedule of at most [turns_left] turns brings [Serve]
    to its return, unless a panic ends the process on the way. *)
Lemma finish_past_loop n : forall s,
  (turns_left s <= n)%nat ->
  session_inv s -> stopped s <> None -> crashed s = false ->
  exists more,
    (length more <= n)%nat /\
    ((exists r, reader_pc (run more s) = Returned r) \/
     crashed (run more s) = true).
Proof.
  induction n as [|n IH]; intros s Hle Hinv Hst Hcr;
    destruct (progress_past_loop s Hinv Hst Hcr) as [Hret|(c & s' & Hs)];
    try (exists []; split; [simpl; lia|by left]).
  - destruct (step_past_loop c s s' Hinv Hst Hs) as [_ Hlt]. lia.
  - destruct (step_past_loop c s s' Hinv Hst Hs) as [Hst' Hlt].
    destruct (crashed s') eqn:Hcr'.
    + exists [c]. simpl. rewrite Hs. simpl. split; [lia|by right].
    + destruct (IH s') as (more & Hlen & Hfin); try done.
      * lia.
      * by eapply step_inv.
      * by rewrite Hst'.
      * exists (c :: more). simpl. rewrite Hs. simpl. split; [lia|done].
Qed.

(** The taken [break] stays recorded. *)
Lemma stopped_stable sched : forall s x,
  session_inv s -> stopped s = Some x -> stopped (run sched s) = Some x.
Proof.
  induction sched as [|c cs IH]; intros s x Hinv Hst; [done|].
  simpl. destruct (step c s) as [s'|] eqn:Hs; simpl; [|by apply IH].
  apply IH; [by eapply step_inv|].
  destruct (step_past_loop c s s') as [-> _]; try done. by rewrite Hst.
Qed.

(** Past the loop, with the channel drained, no packet is served any
    more, so no panic can occur. *)
Lemma drained_step c s s' :
  session_inv s -> stopped s <> None ->
  buf (pktChan (server s)) = [] -> crashed s = false ->
  step c s = Some s' ->
  buf (pktChan (server s')) = [] /\ crashed s' = false.
Proof.
  intros Hinv Hst Hbuf Hcr. unfold step. rewrite Hcr. destruct c as [|i].
  - unfold step_reader, session_inv in *.
    destruct (reader_pc s) as [|pkt| | |r]; try done.
    + by intros [= <-].
    + destruct (forallb is_exited (workers s)); [|done]. by intros [= <-].
  - unfold step_worker. rewrite Hbuf.
    destruct (workers s !! i) as [[|e|]|]; try done.
    + destruct (chClosed (pktChan (server s))); [|done]. by intros [= <-].
    + by intros [= <-].
Qed.

Lemma drained_stays_safe more : forall s,
  session_inv s -> stopped s <> None ->
  buf (pktChan (server s)) = [] -> crashed s = false ->
  crashed (run more s) = false.
Proof.
  induction more as [|c cs IH]; intros s Hinv Hst Hbuf Hcr; [done|].
  simpl. destruct (step c s) as [s'|] eqn:Hs; simpl; [|by apply IH].
  destruct (step_past_loop c s s' Hinv Hst Hs) as [Hst' _].
  destruct (drained_step c s s' Hinv Hst Hbuf Hcr Hs) as [Hbuf' Hcr'].
  apply IH; [by eapply step_inv|by rewrite Hst'|done|done].
Qed.

(** On a fresh server no worker can move before the reader has. *)
Lemma fresh_first_turn c h sched (start := Serve_start (NewRequestServer c h)) :
  run sched start = start \/
  exists s1 rest, step_reader start = Some s1 /\ run sched start = run rest s1.
Proof.
  induction sched as [|ch cs IH]; [by left|].
  simpl. destruct (step ch start) as [s1|] eqn:Hs; simpl; [|done].
  right. exists s1, cs. split; [|done].
  destruct ch as [|i]; [done|].
  unfold step, step_worker in Hs. simpl in Hs.
  destruct (replicate _ _ !! i) as [w|] eqn:Hw; [|done].
  apply lookup_replicate in Hw as [-> _]. done.
Qed.

(** A fresh session whose first message the codec rejects: whatever the
    interleaving, [Serve] returns nil if it returns, and it does return. *)
Lemma fresh_decode_failure c h rx rest e :
  closed c = false -> incoming c = rx :: rest -> makePacket rx = inr e ->
  (forall sched r, Serve sched (NewRequestServer c h) = Some r -> r = None) /\
  (exists sched, Serve sched (NewRequestServer c h) = Some None).
Proof.
  intros Hcl Hin Hmk.
  set (start := Serve_start (NewRequestServer c h)).
  assert (Hfirst : exists s1,
    step_reader start = Some s1 /\ stopped s1 = Some (DecodeFailed e) /\
    buf (pktChan (server s1)) = [] /\ crashed s1 = false).
  { unfold step_reader, conn_read. simpl. rewrite Hcl, Hin, Hmk.
    by eexists. }
  destruct Hfirst as (s1 & Hs1 & Hst1 & Hbuf1 & Hcr1).
  assert (Hinv1 : session_inv s1).
  { apply (step_inv RunReader start); [done|apply start_inv]. }
  assert (Hall : forall sched r,
    Serve sched (NewRequestServer c h) = Some r -> r = None).
  { intros sched r. unfold Serve.
    pose proof (fresh_first_turn c h sched) as Hf. fold start in Hf.
    fold start. destruct Hf as [->|(s1' & more & Hs & ->)]; [done|].
    rewrite Hs1 in Hs. injection Hs as <-.
    pose proof (run_inv more _ Hinv1) as Hinv.
    pose proof (stopped_stable more _ _ Hinv1 Hst1) as Hst.
    unfold session_inv, break_recorded in Hinv.
    destruct (reader_pc (run more s1)) as [|pkt| | |r']; try done.
    intros [= ->]. destruct Hinv as (Hb & _ & -> & _).
    by rewrite Hst in Hb. }
  split; [done|].
  destruct (finish_past_loop (turns_left s1) s1) as (more & _ & Hfin);
    try done; [by rewrite Hst1|].
  destruct Hfin as [[r Hr]|Hcr].
  - exists (RunReader :: more).
    assert (HS : Serve (RunReader :: more) (NewRequestServer c h) = Some r).
    { unfold Serve. simpl. fold start.
      change (step RunReader start) with (step_reader start).
      rewrite Hs1. simpl. by rewrite Hr. }
    by rewrite HS, (Hall _ _ HS).
  - rewrite (drained_stays_safe more s1) in Hcr; try done. by rewrite Hst1.
Qed.

(** A fresh session on a connection with nothing left to read: whatever
    the interleaving, [Serve] returns the error that ends the stream. *)
Lemma fresh_end_of_stream c h sched r :
  closed c = false -> incoming c = [] ->
  Serve sched (NewRequestServer c h) = Some r -> r = Some (eos c).
Proof.
  intros Hcl Hin. unfold Serve.
  set (start := Serve_start (NewRequestServer c h)).
  assert (Hfirst : exists s1,
    step_reader start = Some s1 /\ stopped s1 = Some (RecvFailed (eos c))).
  { unfold step_reader, conn_read. simpl. rewrite Hcl, Hin. by eexists. }
  destruct Hfirst as (s1 & Hs1 & Hst1).
  assert (Hinv1 : session_inv s1).
  { apply (step_inv RunReader start); [done|apply start_inv]. }
  pose proof (fresh_first_turn c h sched) as Hf. fold start in Hf.
  destruct Hf as [->|(s1' & more & Hs & ->)]; [done|].
  rewrite Hs1 in Hs. injection Hs as <-.
  pose proof (run_inv more _ Hinv1) as Hinv.
  pose proof (stopped_stable more _ _ Hinv1 Hst1) as Hst.
  unfold session_inv, break_recorded in Hinv.
  destruct (reader_pc (run more s1)) as [|pkt| | |r']; try done.
  intros [= ->]. destruct Hinv as (Hb & _ & -> & _).
  by rewrite Hst in Hb.
Qed.

(** C2.  A session in which [recvPacket] delivers a message and
    [makePacket] rejects it (here the first message of a fresh session).
    The reader leaves its loop, but the decode error is held by the
    variable that [:=] declared inside the loop body; the [err] of line
    105 still holds the nil of the successful [recvPacket].  So [Serve]
    shuts down and, under every interleaving, what it returns is nil, not
    the decode error [e]. *)
Theorem decode_error_is_not_returned
    (c : Conn) (h : Handlers) (rx : rxPacket) (rest : list rxPacket) (e : error) :
  closed c = false -> incoming c = rx :: rest -> makePacket rx = inr e ->
  (forall sched r, Serve sched (NewRequestServer c h) = Some r -> r = None) /\
  (exists sched, Serve sched (NewRequestServer c h) = Some None) /\
  (forall sched, Serve sched (NewRequestServer c h) <> Some (Some e)).
Proof.
  intros Hcl Hin Hmk.
  destruct (fresh_decode_failure c h rx rest e Hcl Hin Hmk) as [Hall Hex].
  split; [done|]. split; [done|].
  intros sched Hs. by apply Hall in Hs.
Qed.

(** C3 (as the code has it).  In every state that an interleaving of the
    reader and the workers can reach: once the reader has left its loop it
    is at [close(rs.pktChan)], at [wg.Wait()] or past the return; the
    channel is closed from the wait on; [Serve] has returned only with the
    channel closed and every worker exited, and the value returned is the
    recorded [err], which is the error of [recvPacket] when that is what
    ended the reading, a non-nil error whether the read failed or the peer
    ended the stream.  Past the loop every turn of a goroutine uses up
    [turns_left], and within that many turns [Serve] returns, unless a
    panic in a worker ends the process. *)
Theorem serve_shuts_down_and_returns_read_error
    (rs : RequestServer) (sched : list choice) :
  let s := run sched (Serve_start rs) in
  (stopped s <> None ->
     reader_pc s = Closing \/ reader_pc s = Waiting \/
     exists r, reader_pc s = Returned r) /\
  (reader_pc s = Waiting -> chClosed (pktChan (server s)) = true) /\
  (forall r, reader_pc s = Returned r ->
     chClosed (pktChan (server s)) = true /\
     Forall (fun w => w = Exited) (workers s) /\
     r = err s /\
     forall e, stopped s = Some (RecvFailed e) -> r = Some e) /\
  (forall c s', stopped s <> None -> step c s = Some s' ->
     stopped s' = stopped s /\ (turns_left s' < turns_left s)%nat) /\
  (stopped s <> None -> crashed s = false ->
     exists more,
       (length more <= turns_left s)%nat /\
       ((exists r, reader_pc (run more s) = Returned r) \/
        crashed (run more s) = true)).
Proof.
  intros s.
  assert (Hinv : session_inv s) by apply run_inv, start_inv.
  split; [|split; [|split; [|split]]].
  - intros Hst. unfold session_inv in Hinv.
    destruct (reader_pc s) as [|pkt| | |r]; try done; eauto.
  - intros Hpc. unfold session_inv in Hinv. rewrite Hpc in Hinv. tauto.
  - intros r Hpc. unfold session_inv in Hinv. rewrite Hpc in Hinv.
    destruct Hinv as (Hb & Hc & -> & Hall).
    split; [done|]. split; [|split; [done|]].
    + apply Forall_forall. intros w Hw.
      apply list_elem_of_lookup in Hw as [i Hi].
      by eapply all_exited_lookup.
    + intros e He. unfold break_recorded in Hb. by rewrite He in Hb.
  - intros c s' Hst Hs. by apply (step_past_loop c s s').
  - intros Hst Hcr. by apply finish_past_loop.
Qed.

End Session.

(** * The theorems at concrete sessions *)

(** C1 on a fresh server whose [Request] methods return on nil: the reply
    to a read on the unknown handle "/a" is the handler's packet. *)
Lemma unknown_handle_reaches_request_methods_witness :
  openRequests fresh_lenient !! "/a" = None /\
  sends (trace (final_state
    (packetWorker_body (sshFxpOther 5 9 (Some "/a") None) fresh_lenient))) =
  [(responsePacket 0 "", None)].
Proof.
  split; [reflexivity|].
  rewrite (@unknown_handle_reaches_request_methods demo_lenient
             5 9 "/a" None fresh_lenient eq_refl).
  reflexivity.
Defined.

(** C2 on the session whose only message has the unknown type 99. *)
Lemma decode_error_is_not_returned_witness :
  @makePacket demo bad_msg = inr (errOther "unhandled packet type") /\
  Serve shutdown_sched fresh_bad = Some None /\
  forall sched,
    Serve sched fresh_bad <> Some (Some (errOther "unhandled packet type")).
Proof.
  split; [reflexivity|]. split; [reflexivity|].
  apply (@decode_error_is_not_returned demo (conn_of [bad_msg] io_EOF) tt
           bad_msg [] (errOther "unhandled packet type"));
    reflexivity.
Defined.

(** C3, as stated, fails: on a connection that the peer ends cleanly,
    with nothing sent, [Serve] returns the end-of-stream error, not nil. *)
Lemma clean_end_of_stream_returns_error :
  incoming (conn fresh) = [] /\ eos (conn fresh) = io_EOF /\
  Serve shutdown_sched fresh = Some (Some io_EOF) /\
  forall sched, Serve sched fresh <> Some None.
Proof.
  repeat split; try reflexivity.
  intros sched Hs.
  by apply (@fresh_end_of_stream demo (conn_of [] io_EOF) tt) in Hs.
Qed.

(** C3 on the session that the peer ends at once. *)
Lemma serve_shuts_down_and_returns_read_error_witness :
  stopped (run shutdown_sched (Serve_start fresh)) = Some (RecvFailed io_EOF) /\
  reader_pc (run shutdown_sched (Serve_start fresh)) = Returned (Some io_EOF) /\
  (forall r, reader_pc (run shutdown_sched (Serve_start fresh)) = Returned r ->
     r = Some io_EOF) /\
  exists more,
    (exists r, reader_pc (run more (run [RunReader] (Serve_start fresh)))
               = Returned r) \/
    crashed (run more (run [RunReader] (Serve_start fresh))) = true.
Proof.
  split; [reflexivity|]. split; [reflexivity|]. split.
  - intros r Hr.
    destruct (@serve_shuts_down_and_returns_read_error demo fresh shutdown_sched)
      as (_ & _ & Hret & _).
    destruct (Hret r Hr) as (_ & _ & _ & He).
    apply He. reflexivity.
  - destruct (@serve_shuts_down_and_returns_read_error demo fresh [RunReader])
      as (_ & _ & _ & _ & Hfin).
    destruct Hfin as (more & _ & Hmore); [discriminate|reflexivity|].
    by exists more.
Defined.



(** C7 on a close of the open handle "/a", and on a close of the never
    opened handle "/a" of a fresh server. *)
Lemma close_releases_and_reports_success_witness :
  openRequests opened_a !! "/a" = Some 0%nat /\
  (exists res rs',
     packetWorker_body (sshFxpClosePacket 8 "/a") opened_a = Ret res rs' /\
     openRequests rs' !! "/a" = None /\
     written (conn rs') =
       [sshFxpHandlePacket 7 "/a"; sshFxpStatusPacket 8 None]) /\
  openRequests fresh !! "/a" = None /\
  (exists res rs',
     packetWorker_body (sshFxpClosePacket 8 "/a") fresh = Ret res rs' /\
     openRequests rs' = openRequests fresh).
Proof.
  split; [reflexivity|]. split; [|split; [reflexivity|]].
  - destruct (@close_releases_and_reports_success demo 8 "/a" opened_a)
      as (res & rs' & Hb & _ & _ & Hw & _ & _ & Hgone & _).
    exists res, rs'. split; [exact Hb|]. split; [exact Hgone|exact Hw].
  - destruct (@close_releases_and_reports_success demo 8 "/a" fresh)
      as (res & rs' & Hb & _ & _ & _ & _ & _ & _ & Hsame & _).
    exists res, rs'. split; [exact Hb|]. apply Hsame. reflexivity.
Defined.

(** C4 on an open of "/a" followed by an opendir of "/b". *)
Lemma register_distinct_paths_distinct_handles_witness :
  exists evs,
    trace (final_state
      (packetWorker [sshFxpOpenPacket 1 "/a" 0; sshFxpOpendirPacket 2 "/b"] fresh)) =
      trace fresh ++ evs /\
    registered evs = ["/a"; "/b"] /\ NoDup (registered evs).
Proof.
  destruct (proj2 (@register_distinct_paths_distinct_handles demo)
              [sshFxpOpenPacket 1 "/a" 0; sshFxpOpendirPacket 2 "/b"] fresh)
    as (evs & Ht & _ & Hnd & _ & Hall).
  - apply (bool_decide_unpack _). vm_compute. reflexivity.
  - apply (bool_decide_unpack _). vm_compute. reflexivity.
  - exists evs. split; [exact Ht|]. split; [|exact Hnd].
    eapply Hall. reflexivity.
Defined.

(** C6: "/a" stays unknown after its close while "/b" is closed. *)
Lemma release_makes_lookup_fail_witness :
  fst <$> (match getRequest "/a"
             (final_state (packetWorker [sshFxpClosePacket 8 "/b"]
                (final_state (closeRequest "/a" fresh)))) with
           | Ret a _ => Some a
           | Panic _ => None
           end) = Some None.
Proof.
  destruct (@release_makes_lookup_fail demo "/a" fresh) as (_ & Hkeep & _).
  rewrite (Hkeep [sshFxpClosePacket 8 "/b"]); [reflexivity|].
  apply (bool_decide_unpack _). vm_compute. reflexivity.
Defined.

(** C10: the entry made by a stat of "/a" is there after "/b" has been
    opened and closed. *)
Lemma path_packet_entry_outlives_request_witness :
  is_Some (openRequests
    (final_state (packetWorker [sshFxpOpenPacket 7 "/b" 0; sshFxpClosePacket 8 "/b"]
       (final_state (packetWorker_body (sshFxpOther 17 10 None (Some "/a")) fresh))))
    !! "/a").
Proof.
  destruct (@path_packet_entry_outlives_request demo 17 10 "/a" fresh)
    as (_ & _ & _ & Hkeep).
  apply Hkeep. apply (bool_decide_unpack _). vm_compute. reflexivity.
Defined.

(** * Further properties of the worker and the registry *)

Section WorkerMore.

Context `{E : External}.

Lemma sendPacket_conn m rs res rs' :
  sendPacket m rs = Ret res rs' -> conn_write m (conn rs) = (res, conn rs').
Proof.
  intros Hs. by apply sendPacket_Ret in Hs as [_ Hs].
Qed.

(** What one packet does to the connection: one write, or none when a
    panic cuts the body short. *)
Lemma serve_handle_conn pkt handle rs :
  match serve_handle pkt handle rs with
  | Ret res rs' => exists m, conn_write m (conn rs) = (res, conn rs')
  | Panic rs' => conn rs' = conn rs
  end.
Proof.
  assert (Hs := eq_refl (serve_handle pkt handle rs)).
  unfold serve_handle at 2 in Hs. unfold bind in Hs.
  rewrite getRequest_ret in Hs.
  set (found := openRequests rs !! handle) in Hs.
  set (rs1 := emit _ rs) in Hs.
  pose proof (call_populate_frame found pkt rs1) as (_ & Pc & _).
  destruct (call_populate found pkt rs1) as [[] rs2|rs2]; simpl in Pc.
  2:{ by rewrite Hs. }
  pose proof (call_handleRequest_frame found rs2) as (_ & Hc & _).
  destruct (call_handleRequest found rs2) as [[rp err] rs3|rs3]; simpl in Hc.
  2:{ rewrite Hs. congruence. }
  rewrite Hs.
  destruct (sendPacket _ rs3) as [res rs4|rs4] eqn:Hsd.
  - apply sendPacket_conn in Hsd. rewrite Hc, Pc in Hsd. eauto.
  - apply sendPacket_Panic in Hsd as [_ ->]. congruence.
Qed.

Lemma body_conn pkt rs :
  match packetWorker_body pkt rs with
  | Ret res rs' => exists m, conn_write m (conn rs) = (res, conn rs')
  | Panic rs' => conn rs' = conn rs
  end.
Proof.
  assert (Hsend : forall m st, conn st = conn rs ->
    match sendPacket m st with
    | Ret res rs' => exists m, conn_write m (conn rs) = (res, conn rs')
    | Panic rs' => conn rs' = conn rs
    end).
  { intros m st Hc. destruct (sendPacket m st) as [res rs'|rs'] eqn:Hsd.
    - apply sendPacket_conn in Hsd. rewrite Hc in Hsd. eauto.
    - by apply sendPacket_Panic in Hsd as [_ ->]. }
  destruct pkt as [v x|i path f|i path|i h|k i oh op].
  - by apply Hsend.
  - unfold packetWorker_body, bind.
    destruct (register_ret path rs) as (rs1 & -> & _ & _ & Hc & _).
    by apply Hsend.
  - unfold packetWorker_body, bind.
    destruct (register_ret path rs) as (rs1 & -> & _ & _ & Hc & _).
    by apply Hsend.
  - unfold packetWorker_body, bind.
    destruct (closeRequest_ret h rs) as (rs1 & -> & _ & _ & Hc & _).
    by apply Hsend.
  - rewrite body_other. destruct oh as [h|], op as [path|];
      try apply serve_handle_conn.
    destruct (register_ret path rs) as (rs1 & -> & _ & _ & Hc & _).
    rewrite <- Hc. apply serve_handle_conn.
Qed.

(** One packet, one send: the trace of a completed body has exactly one
    more send, and the Transport holds its packet if the write went
    through. *)
Lemma body_one_send pkt rs res rs' :
  packetWorker_body pkt rs = Ret res rs' ->
  exists evs m,
    trace rs' = trace rs ++ evs /\ sends evs = [(m, res)] /\
    written (conn rs') = written (conn rs) ++ (if res is None then [m] else []).
Proof.
  intros Hb.
  assert (Hopen : forall i path,
    bind (register path)
         (fun handle => sendPacket (sshFxpHandlePacket i handle)) rs
      = Ret res rs' ->
    exists evs m, trace rs' = trace rs ++ evs /\ sends evs = [(m, res)] /\
      written (conn rs') = written (conn rs) ++ (if res is None then [m] else [])).
  { intros i path. unfold bind.
    destruct (register_ret path rs) as (rs1 & -> & _ & Ht & Hc & _).
    destruct (sendPacket_ret (sshFxpHandlePacket i path) rs1 ltac:(done))
      as (r & rs2 & -> & _ & Ht2 & Hw & _).
    intros [= <- <-].
    exists [EvNextRequest path; EvSendPacket (sshFxpHandlePacket i path) r],
           (sshFxpHandlePacket i path).
    by rewrite Ht2, Ht, Hw, Hc, <- app_assoc. }
  destruct pkt as [v x|i path f|i path|i h|k i oh op].
  - destruct (init_body_ret rs) as (r & rs1 & Hs & Ht & Hw & _).
    change (sendPacket (sshFxVersionPacket sftpProtocolVersion []) rs
            = Ret res rs') in Hb.
    rewrite Hs in Hb. injection Hb as <- <-.
    by exists [EvSendPacket (sshFxVersionPacket sftpProtocolVersion []) r],
              (sshFxVersionPacket sftpProtocolVersion []).
  - by apply (Hopen i path).
  - by apply (Hopen i path).
  - destruct (close_body_ret i h rs) as (r & rs1 & Hc & _ & Ht & _ & Hw).
    rewrite Hc in Hb. injection Hb as <- <-.
    by exists [EvCloseRequest h; EvSendPacket (sshFxpStatusPacket i None) r],
              (sshFxpStatusPacket i None).
  - rewrite body_other in Hb.
    assert (Hserve : forall handle st pre,
      trace st = trace rs ++ pre -> sends pre = [] ->
      written (conn st) = written (conn rs) ->
      serve_handle (sshFxpOther k i oh op) handle st = Ret res rs' ->
      exists evs m, trace rs' = trace rs ++ evs /\ sends evs = [(m, res)] /\
        written (conn rs') = written (conn rs) ++ (if res is None then [m] else [])).
    { intros handle st pre Ht Hp Hw Hs.
      pose proof (serve_handle_spec (sshFxpOther k i oh op) handle st) as [_ Hspec].
      cbv zeta in Hspec. rewrite Hs in Hspec.
      destruct Hspec as (m & Ht2 & Hw2 & _).
      eexists _, m. rewrite Ht2, Ht, <- app_assoc. split; [reflexivity|].
      unfold sends in *. rewrite omap_app, Hp. simpl.
      split; [done|]. by rewrite Hw2, Hw. }
    destruct oh as [h|]; [|destruct op as [path|]].
    + apply (Hserve h rs []); try done. by rewrite app_nil_r.
    + destruct (register_ret path rs) as (rs1 & Hr & _ & Ht & Hc & _).
      rewrite Hr in Hb.
      apply (Hserve path rs1 [EvNextRequest path]); try done. by rewrite Hc.
    + apply (Hserve "" rs []); try done. by rewrite app_nil_r.
Qed.




(** X1.  A packet that carries a known handle is served by the request
    stored under that handle: [populate] runs on it, [handleRequest] runs
    on the populated request, and what goes to the connection is the
    handler's packet, or the status reply with the packet's identifier and
    the handler's error; the worker goes on unless that write fails.  When
    the handler returns the nil interface next to a nil error, [sendPacket]
    panics on it and nothing goes to the connection.  Either way the
    registry is as before, the request keeps what the two methods left in
    it, and no other request is touched. *)
Theorem known_handle_served_by_stored_request
    (k i : Z) (h : string) (op : option string) (rs : RequestServer)
    (a : ptr) (r1 r2 : Request ReqData) (rpkt : marshaler) (err : option error)
    (pkt := sshFxpOther k i (Some h) op)
    (m := match err with
          | Some e => sshFxpStatusPacket i (Some e)
          | None => rpkt
          end) :
  openRequests rs !! h = Some a ->
  populate (mem rs a) pkt = Returns r1 ->
  handleRequest r1 (handlers rs) = Returns (r2, (rpkt, err)) ->
  (m <> nil_marshaler ->
   exists res rs',
     packetWorker_body pkt rs = Ret res rs' /\
     conn_write m (conn rs) = (res, conn rs') /\
     res = match wfaults (conn rs) with Some e :: _ => Some e | _ => None end /\
     written (conn rs') =
       written (conn rs) ++
         match wfaults (conn rs) with Some _ :: _ => [] | _ => [m] end /\
     trace rs' = trace rs ++
       [EvGetRequest h true; EvPopulate (Some a) pkt;
        EvHandleRequest (Some a); EvSendPacket m res] /\
     openRequests rs' = openRequests rs /\
     mem rs' a = r2 /\
     (forall b, b <> a -> mem rs' b = mem rs b) /\
     next rs' = next rs) /\
  (m = nil_marshaler ->
   exists rs',
     packetWorker_body pkt rs = Panic rs' /\
     conn rs' = conn rs /\
     trace rs' = trace rs ++
       [EvGetRequest h true; EvPopulate (Some a) pkt;
        EvHandleRequest (Some a)] /\
     openRequests rs' = openRequests rs /\
     mem rs' a = r2 /\
     (forall b, b <> a -> mem rs' b = mem rs b)).
Proof.
  intros Hl Hp Hh. subst pkt.
  assert (Hbody : exists st3,
    packetWorker_body (sshFxpOther k i (Some h) op) rs = sendPacket m st3 /\
    conn st3 = conn rs /\
    trace st3 = trace rs ++
      [EvGetRequest h true; EvPopulate (Some a) (sshFxpOther k i (Some h) op);
       EvHandleRequest (Some a)] /\
    openRequests st3 = openRequests rs /\ mem st3 a = r2 /\
    (forall b, b <> a -> mem st3 b = mem rs b) /\ next st3 = next rs).
  { rewrite body_other.
    unfold serve_handle, bind. rewrite getRequest_ret, Hl.
    unfold call_populate, call_handleRequest, bind, modify, gets, call, ret.
    simpl. rewrite Hp. simpl. rewrite decide_True by done. rewrite Hh. simpl.
    match goal with
    | |- context [sendPacket ?x ?st] => change x with m; exists st
    end.
    split; [done|]. simpl. rewrite <- !app_assoc. simpl.
    repeat split; try done.
    - by rewrite decide_True.
    - intros b Hb. by rewrite !decide_False. }
  destruct Hbody as (st3 & Hb & Hc & Ht & Ho & Hm2 & Hfr & Hn).
  split.
  - intros Hm.
    destruct (sendPacket_ret m st3 Hm)
      as (res & rs' & Hs & _ & Ht' & _ & Ho' & Hm' & Hn' & _).
    destruct (sendPacket_Ret _ _ _ _ Hs) as [_ Hcw]. rewrite Hc in Hcw.
    destruct (conn_write_written _ _ _ _ Hcw) as [Hres Hw].
    exists res, rs'. rewrite Hb, Ht', Ho', Hm', Hn', Ht, <- app_assoc. simpl.
    repeat split; try done.
  - intros Hnil. exists st3. rewrite Hb, Hnil. by repeat split.
Qed.

(** X2.  A packet changes the registry at one key at most: the path it
    registers or the handle it closes.  Every other handle is found, or
    not found, exactly as before, whether the body completes, fails to
    write, or panics. *)
Theorem other_handles_untouched (pkt : packet) (rs : RequestServer) (h : string) :
  registers pkt <> Some h -> closes pkt <> Some h ->
  openRequests (final_state (packetWorker_body pkt rs)) !! h =
  openRequests rs !! h.
Proof.
  intros Hr Hc. rewrite body_registry.
  destruct (registers pkt) as [path|]; [|destruct (closes pkt) as [h'|]].
  - rewrite lookup_insert_ne; [done|congruence].
  - rewrite lookup_delete_ne; [done|congruence].
  - done.
Qed.

(** X3.  The set of open handles follows the packets served.  After a
    worker has run on [pkts], the handles in the registry are the replay
    of the packets it got to (all of them when it returns nil): each
    registered path added, each closed handle removed, in order. *)
Theorem open_handles_replay_served_packets (pkts : list packet) :
  forall rs : RequestServer,
  exists served,
    served `prefix_of` pkts /\
    dom (openRequests (final_state (packetWorker pkts rs))) =
      open_handles_after served (dom (openRequests rs)) /\
    (forall rs', packetWorker pkts rs = Ret None rs' -> served = pkts).
Proof.
  induction pkts as [|pkt rest IH]; intros rs.
  { exists []. split; [apply prefix_nil|]. by split. }
  assert (Hstep :
    dom (openRequests (final_state (packetWorker_body pkt rs))) =
    handles_step (dom (openRequests rs)) pkt).
  { rewrite body_registry. unfold handles_step.
    destruct (registers pkt) as [path|]; [|destruct (closes pkt) as [h|]].
    - by rewrite dom_insert_L.
    - by rewrite dom_delete_L.
    - done. }
  rewrite packetWorker_cons.
  destruct (packetWorker_body pkt rs) as [[e|] rs1|rs1] eqn:Hb; simpl in Hstep.
  - exists [pkt]. split; [apply prefix_cons, prefix_nil|]. simpl.
    by rewrite Hstep.
  - destruct (IH rs1) as (served & Hpre & Hdom & Hall).
    exists (pkt :: served). split; [by apply prefix_cons|].
    split; [by rewrite Hdom, Hstep|].
    intros rs' Hret. f_equal. by eapply Hall.
  - exists [pkt]. split; [apply prefix_cons, prefix_nil|]. simpl.
    by rewrite Hstep.
Qed.


(** X5.  A packet that has neither a handle nor a path matches no case of
    the type switch, so [handle] keeps its zero value: the lookup is made
    under the empty handle and the request found there (nil, unless the
    empty path was registered) gets the packet.  The registry is not
    changed. *)
Theorem packet_without_handle_uses_empty_handle
    (k i : Z) (rs : RequestServer) (pkt := sshFxpOther k i None None) :
  openRequests (final_state (packetWorker_body pkt rs)) = openRequests rs /\
  exists evs,
    trace (final_state (packetWorker_body pkt rs)) =
    trace rs ++
      EvGetRequest "" (bool_decide (is_Some (openRequests rs !! ""))) ::
      EvPopulate (openRequests rs !! "") pkt :: evs.
Proof.
  subst pkt. rewrite body_other.
  pose proof (serve_handle_spec (sshFxpOther k i None None) "" rs) as [Ho Hspec].
  cbv zeta in Hspec. split; [done|].
  destruct (serve_handle _ "" rs) as [res rs'|rs']; simpl.
  - destruct Hspec as (m & -> & _). by eexists.
  - destruct Hspec as [->| ->]; by eexists.
Qed.

(** X6.  [packetWorker] returns nil only after it has sent a reply for
    every packet, each write having succeeded; it returns an error only
    when the write of a reply failed with that error, and then it has
    served at most that packet and none of the packets after it. *)
Theorem worker_stops_at_first_failed_write (pkts : list packet) :
  forall (rs : RequestServer) (r : option error) (rs' : RequestServer),
  packetWorker pkts rs = Ret r rs' ->
  exists evs,
    trace rs' = trace rs ++ evs /\
    match r with
    | None =>
        length (sends evs) = length pkts /\
        Forall (fun x => x.2 = None) (sends evs) /\
        written (conn rs') = written (conn rs) ++ (sends evs).*1
    | Some e =>
        exists ms m,
          sends evs = ms ++ [(m, Some e)] /\
          Forall (fun x => x.2 = None) ms /\
          (length ms < length pkts)%nat /\
          written (conn rs') = written (conn rs) ++ ms.*1
    end.
Proof.
  induction pkts as [|pkt rest IH]; intros rs r rs' Hw.
  { injection Hw as <- <-. exists []. rewrite !app_nil_r. by repeat split. }
  rewrite packetWorker_cons in Hw.
  destruct (packetWorker_body pkt rs) as [res rs1|rs1] eqn:Hb; [|by destruct r].
  destruct (body_one_send pkt rs res rs1 Hb) as (evs1 & m1 & Ht1 & Hs1 & Hw1).
  destruct res as [e|].
  - injection Hw as <- <-. exists evs1. split; [done|].
    exists [], m1. simpl. split; [done|]. split; [constructor|].
    split; [lia|]. by rewrite Hw1.
  - destruct (IH rs1 r rs' Hw) as (evs & Ht & Hr).
    exists (evs1 ++ evs). split; [by rewrite Ht, Ht1, <- app_assoc|].
    unfold sends in *. rewrite omap_app, Hs1. simpl.
    destruct r as [e|].
    + destruct Hr as (ms & m & Hms & Hall & Hlen & Hwr).
      exists ((m1, None) :: ms), m. rewrite Hms. simpl.
      split; [done|]. split; [by constructor|]. split; [lia|].
      by rewrite Hwr, Hw1, <- app_assoc.
    + destruct Hr as (Hlen & Hall & Hwr). simpl.
      split; [by rewrite Hlen|]. split; [by constructor|].
      by rewrite Hwr, Hw1, <- app_assoc.
Qed.

End WorkerMore.

(** * Further properties of [Serve] *)

Section SessionMore.

Context `{E : External}.

Lemma run_app a : forall b s, run (a ++ b) s = run b (run a s).
Proof. induction a as [|c a IH]; intros b s; [done|]. simpl. apply IH. Qed.

(** A worker's turn takes at most one packet from the channel and leaves
    the reader alone. *)
Lemma step_worker_buf i s s' :
  step_worker i s = Some s' ->
  buf (pktChan (server s')) = buf (pktChan (server s)) \/
  exists pkt, buf (pktChan (server s)) = pkt :: buf (pktChan (server s')).
Proof.
  unfold step_worker. intros Hs.
  destruct (workers s !! i) as [[|e|]|]; [| |done|done].
  - destruct (buf (pktChan (server s))) as [|pkt rest] eqn:Hb.
    + destruct (chClosed (pktChan (server s))); [|done].
      injection Hs as <-. left. by simpl.
    + set (srv := set_pktChan _ (server s)) in Hs.
      pose proof (body_pktChan pkt srv) as Hp.
      right. exists pkt.
      destruct (packetWorker_body pkt srv) as [[e|] srv'|srv'];
        injection Hs as <-; simpl in *; by rewrite Hp.
  - injection Hs as <-. left. by simpl.
Qed.

Lemma start_chan_inv c h : chan_inv (Serve_start (NewRequestServer c h)).
Proof. split; simpl; [lia|done]. Qed.

Lemma step_chan_inv c s s' :
  step c s = Some s' -> chan_inv s -> chan_inv s'.
Proof.
  unfold step. destruct (crashed s); [done|]. intros Hs [Hlen Hopen].
  destruct c as [|i].
  - unfold step_reader, chan_inv in *.
    destruct (reader_pc s) as [|pkt| | |r] eqn:Hpc; simpl in Hopen.
    + destruct (conn_read (conn (server s))) as [[rx|e] c].
      * destruct (makePacket rx) as [pkt|e]; injection Hs as <-; simpl; auto.
      * injection Hs as <-. simpl. auto.
    + case_decide; [|done]. injection Hs as <-. simpl.
      rewrite length_app. simpl. split; [lia|auto].
    + injection Hs as <-. by simpl.
    + destruct (forallb is_exited (workers s)); [|done].
      injection Hs as <-. by simpl.
    + done.
  - destruct (step_worker_frame i s s' Hs) as (Hpc & _ & _ & Hc & _).
    unfold chan_inv. rewrite Hpc, Hc. split; [|done].
    destruct (step_worker_buf i s s' Hs) as [->|[pkt Hb]]; [done|].
    rewrite Hb in Hlen. simpl in Hlen. lia.
Qed.

Lemma run_chan_inv sched : forall s, chan_inv s -> chan_inv (run sched s).
Proof.
  induction sched as [|c cs IH]; intros s Hinv; [done|].
  simpl. apply IH. destruct (step c s) as [s'|] eqn:Hs; simpl; [|done].
  by eapply step_chan_inv.
Qed.

(** X9.  On a server made by [NewRequestServer], whatever the
    interleaving: the channel never holds more than
    [sftpServerWorkerCount] packets, and it is closed exactly when the
    reader is past [close(rs.pktChan)], so [Serve] never sends on a closed
    channel and never closes it twice. *)
Theorem channel_bounded_and_closed_once
    (c : Conn) (h : Handlers) (sched : list choice) :
  let s := run sched (Serve_start (NewRequestServer c h)) in
  (length (buf (pktChan (server s))) <= sftpServerWorkerCount)%nat /\
  chClosed (pktChan (server s)) = negb (before_close (reader_pc s)).
Proof.
  intros s.
  assert (Hc : chan_inv s) by apply run_chan_inv, start_chan_inv.
  assert (Hi : session_inv s) by apply run_inv, start_inv.
  destruct Hc as [Hlen Hopen]. split; [done|].
  unfold session_inv in Hi.
  destruct (reader_pc s) as [|pkt| | |r]; simpl in *; auto; tauto.
Qed.

(** X8.  [Serve] can block for good.  When every worker has exited (which,
    before the channel is closed, a worker does only after a failed write)
    while the channel is full and the reader is at [rs.pktChan <- pkt], no
    goroutine can move any more: the state stays as it is under every
    further schedule and [Serve] does not return. *)
Theorem serve_blocks_when_all_workers_failed
    (rs : RequestServer) (sched : list choice) (pkt : packet) :
  let s := run sched (Serve_start rs) in
  reader_pc s = Enqueueing pkt ->
  forallb is_exited (workers s) = true ->
  (sftpServerWorkerCount <= length (buf (pktChan (server s))))%nat ->
  forall more, run more s = s /\ Serve (sched ++ more) rs = None.
Proof.
  intros s Hpc Hall Hfull more.
  assert (Hstuck : forall c, step c s = None).
  { intros c. unfold step. destruct (crashed s); [done|]. destruct c as [|i].
    - unfold step_reader. rewrite Hpc. case_decide; [lia|done].
    - unfold step_worker.
      destruct (workers s !! i) as [w|] eqn:Hw; [|done].
      by rewrite (all_exited_lookup _ _ _ Hall Hw). }
  assert (Hrun : run more s = s).
  { induction more as [|c cs IH]; [done|]. simpl. by rewrite Hstuck. }
  split; [done|]. unfold Serve. rewrite run_app. fold s.
  by rewrite Hrun, Hpc.
Qed.

(** Past the loop no turn reads from the connection. *)
Lemma step_keeps_incoming c s s' :
  session_inv s -> stopped s <> None -> step c s = Some s' ->
  incoming (conn (server s')) = incoming (conn (server s)).
Proof.
  unfold step. destruct (crashed s); [done|]. intros Hinv Hst.
  destruct c as [|i].
  - unfold step_reader, session_inv in *.
    destruct (reader_pc s) as [|pkt| | |r]; try done.
    + by intros [= <-].
    + destruct (forallb is_exited (workers s)); [|done]. by intros [= <-].
  - unfold step_worker.
    destruct (workers s !! i) as [[|e|]|]; try done.
    + destruct (buf (pktChan (server s))) as [|pkt rest].
      * destruct (chClosed (pktChan (server s))); [|done]. by intros [= <-].
      * set (srv := set_pktChan _ (server s)).
        pose proof (body_conn pkt srv) as Hc.
        assert (Hw : forall m res c',
          conn_write m (conn srv) = (res, c') ->
          incoming c' = incoming (conn (server s))).
        { intros m res c'. unfold conn_write. simpl.
          destruct (wfaults (conn (server s))) as [|[e|] ws];
            by intros [= <- <-]. }
        destruct (packetWorker_body pkt srv) as [[e|] srv'|srv'];
          intros [= <-]; simpl.
        -- destruct Hc as [m Hm]. by eapply Hw.
        -- destruct Hc as [m Hm]. by eapply Hw.
        -- by rewrite Hc.
    + by intros [= <-].
Qed.

(** X10.  Once the reader has left its loop nothing more is taken from
    the connection: whatever the workers still do, the messages not yet
    read stay unread. *)
Theorem nothing_read_after_the_loop
    (rs : RequestServer) (sched more : list choice) :
  let s := run sched (Serve_start rs) in
  stopped s <> None ->
  stopped (run more s) = stopped s /\
  incoming (conn (server (run more s))) = incoming (conn (server s)).
Proof.
  intros s Hst.
  assert (Hinv : session_inv s) by apply run_inv, start_inv.
  clearbody s. revert s Hst Hinv.
  induction more as [|c cs IH]; intros s Hst Hinv; [done|].
  simpl. destruct (step c s) as [s'|] eqn:Hs; simpl; [|by apply IH].
  destruct (step_past_loop c s s' Hinv Hst Hs) as [Hst' _].
  rewrite <- Hst', <- (step_keeps_incoming c s s' Hinv Hst Hs).
  apply IH; [by rewrite Hst'|by eapply step_inv].
Qed.

Lemma start_quiet_inv c h :
  wfaults c = [] -> quiet_inv c (Serve_start (NewRequestServer c h)).
Proof.
  intros Hw. right. simpl. repeat split; try done.
  - apply Forall_forall. intros w Hin.
    apply elem_of_replicate in Hin as [-> _]. by left.
  - left. apply Forall_forall. intros w Hin.
    by apply elem_of_replicate in Hin as [-> _].
  - lia.
Qed.

(** On a connection whose writes succeed a completed body has written
    its one reply and left the rest of the connection alone. *)
Lemma body_quiet pkt rs res rs' :
  wfaults (conn rs) = [] ->
  packetWorker_body pkt rs = Ret res rs' ->
  res = None /\ wfaults (conn rs') = [] /\ eos (conn rs') = eos (conn rs) /\
  closed (conn rs') = closed (conn rs) /\
  incoming (conn rs') = incoming (conn rs) /\
  length (written (conn rs')) = S (length (written (conn rs))).
Proof.
  intros Hw Hb. pose proof (body_conn pkt rs) as Hc. rewrite Hb in Hc.
  destruct Hc as [m Hm]. unfold conn_write in Hm. rewrite Hw in Hm.
  injection Hm as <- <-. simpl. rewrite length_app. simpl.
  repeat split; try done. lia.
Qed.

Lemma step_quiet_inv c0 c s s' :
  step c s = Some s' -> session_inv s -> chan_inv s ->
  quiet_inv c0 s -> quiet_inv c0 s'.
Proof.
  unfold step. destruct (crashed s) eqn:Hcr; [done|].
  intros Hs Hinv [_ Hopen] [Hq|Hq]; [congruence|].
  destruct Hq as (Hwf & Heos & Hcl & Hwk & Hdr & Hrf & Hsum).
  destruct c as [|i].
  - unfold step_reader, session_inv in *.
    destruct (reader_pc s) as [|pkt| | |r] eqn:Hpc; simpl in Hopen, Hsum.
    + rewrite Hinv in Hsum. simpl in Hsum. unfold conn_read in Hs.
      destruct (closed (conn (server s))) eqn:Hclosed.
      { injection Hs as <-. right. simpl.
        split_and!; try done; try lia; congruence. }
      destruct (incoming (conn (server s))) as [|rx rest] eqn:Hin.
      { injection Hs as <-. right. simpl. rewrite Hin.
        split_and!; try done; try lia; try congruence.
        intros e [= <-] _. split; [congruence|done]. }
      simpl in Hsum.
      destruct (makePacket rx) as [pkt|e]; injection Hs as <-; right; simpl;
        rewrite ?Hinv; simpl; split_and!; try done; try lia; congruence.
    + case_decide; [|done]. injection Hs as <-. right. simpl.
      rewrite length_app. simpl. split_and!; try done; try lia; try congruence.
      left. destruct Hdr as [Hall|[Hc _]]; [done|].
      rewrite Hopen in Hc; done.
    + injection Hs as <-. right. simpl. split_and!; try done; try lia; try congruence.
      destruct Hdr as [Hall|[_ Hb]]; [by left|by right].
    + destruct (forallb is_exited (workers s)); [|done].
      injection Hs as <-. right. simpl. split_and!; try done; try lia; congruence.
    + done.
  - unfold step_worker in Hs.
    destruct (workers s !! i) as [[|e|]|] eqn:Hw; [| |done|done].
    2:{ rewrite Forall_forall in Hwk.
        destruct (Hwk (Failed e)) as [?|?]; [|done|done].
        apply list_elem_of_lookup. eauto. }
    destruct (buf (pktChan (server s))) as [|pkt rest] eqn:Hb.
    + destruct (chClosed (pktChan (server s))) eqn:Hc; [|done].
      injection Hs as <-. right. simpl. rewrite Hb. simpl in Hsum.
      split_and!; try done; try lia; try congruence.
      * apply Forall_insert; [done|by right].
      * by right.
    + set (srv := set_pktChan _ (server s)) in Hs.
      pose proof (body_pktChan pkt srv) as Hp.
      destruct (packetWorker_body pkt srv) as [res srv'|srv'] eqn:Hbody.
      2:{ injection Hs as <-. by left. }
      destruct (body_quiet pkt srv res srv' Hwf Hbody)
        as (-> & Hwf' & Heos' & Hcl' & Hin' & Hlen').
      injection Hs as <-. right. simpl in *.
      rewrite Hp, Hwf', Heos', Hcl', Hin', Hlen'. simpl.
      split_and!; try done; try lia; try congruence.
      left. by destruct Hdr as [Hall|[_ Hn]].
Qed.

Lemma run_quiet_inv c0 sched : forall s,
  session_inv s -> chan_inv s -> quiet_inv c0 s -> quiet_inv c0 (run sched s).
Proof.
  induction sched as [|c cs IH]; intros s Hi Hc Hq; [done|].
  simpl. destruct (step c s) as [s'|] eqn:Hs; simpl; [|by apply IH].
  apply IH; [by eapply step_inv|by eapply step_chan_inv|
             by eapply step_quiet_inv].
Qed.

(** The number of worker goroutines does not change. *)
Lemma run_workers_length sched : forall s,
  length (workers (run sched s)) = length (workers s).
Proof.
  induction sched as [|ch cs IH]; intros s; [done|].
  simpl. rewrite IH.
  destruct (step ch s) as [s1|] eqn:Hs1; simpl; [|done].
  unfold step in Hs1. destruct (crashed s); [done|].
  destruct ch as [|j].
  - unfold step_reader in Hs1.
    destruct (reader_pc s); repeat case_match; simplify_eq; simpl; done.
  - unfold step_worker in Hs1.
    repeat case_match; simplify_eq; simpl; rewrite ?length_insert; done.
Qed.

(** X7.  On a connection on which no write fails, whatever the number of
    workers and their interleaving: when [Serve] has returned (and no
    goroutine has panicked) the channel is empty, the connection was not
    closed, and a reply has been written for every message that was read,
    but for the one the codec rejected.  If the reading ended with the
    stream, that is one reply for every message of the session. *)
Theorem every_packet_read_is_answered
    (c : Conn) (h : Handlers) (sched : list choice) (r : option error) :
  wfaults c = [] ->
  let s := run sched (Serve_start (NewRequestServer c h)) in
  reader_pc s = Returned r -> crashed s = false ->
  buf (pktChan (server s)) = [] /\
  closed (conn (server s)) = closed c /\
  (length (written (conn (server s))) + length (incoming (conn (server s))) +
   rejected (stopped s) = length (written c) + length (incoming c))%nat /\
  (closed c = false -> forall e, stopped s = Some (RecvFailed e) ->
     r = Some (eos c) /\
     length (written (conn (server s))) =
       (length (written c) + length (incoming c))%nat).
Proof.
  intros Hw s Hpc Hcr.
  assert (Hi : session_inv s) by apply run_inv, start_inv.
  assert (Hc : chan_inv s) by apply run_chan_inv, start_chan_inv.
  assert (Hq : quiet_inv c s).
  { apply run_quiet_inv; [apply start_inv|apply start_chan_inv|
                          by apply start_quiet_inv]. }
  destruct Hq as [Hq|(Hwf & Heos & Hcl & Hwk & Hdr & Hrf & Hsum)];
    [congruence|].
  unfold session_inv in Hi. rewrite Hpc in Hi.
  destruct Hi as (Hbr & Hch & -> & Hall).
  destruct Hc as [Hlen _].
  assert (Hbuf : buf (pktChan (server s)) = []).
  { destruct Hdr as [Hworking|[_ Hb]]; [|done].
    destruct (workers s) as [|w ws] eqn:Hws.
    - assert (Hz : sftpServerWorkerCount = 0%nat).
      { pose proof (run_workers_length sched
                      (Serve_start (NewRequestServer c h))) as Hl.
        fold s in Hl. rewrite Hws in Hl. simpl in Hl.
        by rewrite length_replicate in Hl. }
      rewrite Hz in Hlen. by destruct (buf (pktChan (server s))); [|simpl in Hlen; lia].
    - rewrite ?Hws in Hworking, Hall.
      apply Forall_cons in Hworking as [-> _]. done. }
  rewrite Hpc, Hbuf in Hsum. simpl in Hsum.
  split; [done|]. split; [done|]. split; [lia|].
  intros Hopen e He. destruct (Hrf e He Hopen) as [-> Hin].
  unfold break_recorded in Hbr. rewrite He in Hbr.
  split; [done|]. rewrite Hin, He in Hsum. simpl in Hsum. lia.
Qed.

End SessionMore.

(** * The further properties at concrete sessions *)

(** X1: a read on "/a" after "/a" was opened, answered by the handler of
    [demo]; and the same read when the handler returns the nil interface. *)
Lemma known_handle_served_by_stored_request_witness :
  (exists res rs',
     packetWorker_body read_a opened_a = Ret res rs' /\
     written (conn rs') = [sshFxpHandlePacket 7 "/a"; responsePacket 9 "/a"] /\
     fields (mem rs' 0%nat) = [read_a]) /\
  (exists rs',
     @packetWorker_body demo_nil_reply read_a
       (final_state (@packetWorker_body demo_nil_reply
                       (sshFxpOpenPacket 7 "/a" 0)
                       (@NewRequestServer demo_nil_reply (conn_of [] io_EOF) tt)))
       = Panic rs' /\
     written (conn rs') = [sshFxpHandlePacket 7 "/a"]).
Proof.
  split.
  - destruct (@known_handle_served_by_stored_request demo 5 9 "/a" None opened_a
                0%nat (mkRequest "/a" [read_a]) (mkRequest "/a" [read_a])
                (responsePacket 9 "/a") None eq_refl eq_refl eq_refl)
      as [Hret _].
    destruct (Hret ltac:(discriminate))
      as (res & rs' & Hb & _ & _ & Hw & _ & _ & Hm & _).
    exists res, rs'. split; [exact Hb|]. split; [exact Hw|].
    rewrite Hm. reflexivity.
  - destruct (@known_handle_served_by_stored_request demo_nil_reply
                5 9 "/a" None
                (final_state (@packetWorker_body demo_nil_reply
                                (sshFxpOpenPacket 7 "/a" 0)
                                (@NewRequestServer demo_nil_reply
                                   (conn_of [] io_EOF) tt)))
                0%nat (mkRequest "/a" [read_a]) (mkRequest "/a" [read_a])
                nil_marshaler None eq_refl eq_refl eq_refl)
      as [_ Hnil].
    destruct (Hnil eq_refl) as (rs' & Hb & Hc & _).
    exists rs'. split; [exact Hb|]. rewrite Hc. reflexivity.
Defined.

(** X2: closing "/b" leaves the open handle "/a" alone. *)
Lemma other_handles_untouched_witness :
  openRequests (final_state (packetWorker_body (sshFxpClosePacket 8 "/b") opened_a))
    !! "/a" = Some 0%nat.
Proof.
  transitivity (openRequests opened_a !! "/a"); [|reflexivity].
  apply (@other_handles_untouched demo (sshFxpClosePacket 8 "/b") opened_a "/a").
  - simpl. discriminate.
  - simpl. discriminate.
Defined.

(** X3: open "/a", open "/b", close "/a" leaves exactly "/b" open. *)
Lemma open_handles_replay_served_packets_witness :
  dom (openRequests (final_state
    (packetWorker [sshFxpOpenPacket 1 "/a" 0; sshFxpOpendirPacket 2 "/b";
                   sshFxpClosePacket 3 "/a"] fresh))) = {["/b"]}.
Proof.
  destruct (@open_handles_replay_served_packets demo
              [sshFxpOpenPacket 1 "/a" 0; sshFxpOpendirPacket 2 "/b";
               sshFxpClosePacket 3 "/a"] fresh)
    as (served & _ & Hdom & Hall).
  assert (Hrun :
    packetWorker [sshFxpOpenPacket 1 "/a" 0; sshFxpOpendirPacket 2 "/b";
                  sshFxpClosePacket 3 "/a"] fresh =
    Ret None (final_state
      (packetWorker [sshFxpOpenPacket 1 "/a" 0; sshFxpOpendirPacket 2 "/b";
                     sshFxpClosePacket 3 "/a"] fresh)))
    by (vm_compute; reflexivity).
  rewrite Hdom, (Hall _ Hrun). vm_compute. reflexivity.
Defined.


(** X6: a worker whose first write fails stops at the first packet. *)
Lemma worker_stops_at_first_failed_write_witness :
  exists evs ms m,
    trace (final_state (packetWorker
      [sshFxpOpenPacket 1 "/a" 0; sshFxpClosePacket 2 "/a"]
      (@NewRequestServer demo failing_conn tt))) = evs /\
    sends evs = ms ++ [(m, Some (errOther "broken pipe"))] /\
    (length ms < 2)%nat.
Proof.
  destruct (@worker_stops_at_first_failed_write demo
              [sshFxpOpenPacket 1 "/a" 0; sshFxpClosePacket 2 "/a"]
              (@NewRequestServer demo failing_conn tt)
              (Some (errOther "broken pipe")) _
              ltac:(vm_compute; reflexivity))
    as (evs & Ht & ms & m & Hs & _ & Hlen & _).
  exists evs, ms, m. split; [exact Ht|]. split; [exact Hs|exact Hlen].
Defined.

(** X7: three opens served by two workers, each answered. *)
Lemma every_packet_read_is_answered_witness :
  reader_pc (run fair_sched (Serve_start (@NewRequestServer demo three_opens tt)))
    = Returned (Some io_EOF) /\
  length (written (conn (server
    (run fair_sched (Serve_start (@NewRequestServer demo three_opens tt))))))
    = 3%nat.
Proof.
  split; [reflexivity|].
  destruct (@every_packet_read_is_answered demo three_opens tt fair_sched
              (Some io_EOF) eq_refl eq_refl eq_refl) as (_ & _ & _ & Hall).
  destruct (Hall eq_refl io_EOF eq_refl) as [_ Hlen]. exact Hlen.
Defined.

(** X8: with two workers, two failed writes and five messages, the reader
    is left at the channel with nobody to receive. *)
Lemma serve_blocks_when_all_workers_failed_witness :
  workers (run hang_sched (Serve_start (@NewRequestServer demo failing_conn tt)))
    = [Exited; Exited] /\
  forall more,
    Serve (hang_sched ++ more) (@NewRequestServer demo failing_conn tt) = None.
Proof.
  split; [vm_compute; reflexivity|].
  intros more.
  apply (@serve_blocks_when_all_workers_failed demo
           (@NewRequestServer demo failing_conn tt) hang_sched
           (sshFxpOpenPacket 7 "/e" 0)).
  - reflexivity.
  - reflexivity.
  - vm_compute. lia.
Defined.

(** X10: the message behind a rejected one is never read. *)
Lemma nothing_read_after_the_loop_witness :
  incoming (conn (server
    (run shutdown_sched (Serve_start (@NewRequestServer demo bad_then_open tt)))))
  = [mkRx 3 []].
Proof.
  destruct (@nothing_read_after_the_loop demo
              (@NewRequestServer demo bad_then_open tt) [RunReader]
              [RunReader; RunWorker 0; RunWorker 1; RunReader])
    as [_ Hin].
  - discriminate.
  - exact Hin.
Defined.
